(** * SurahKit: the partition cache and the query layer of [src/surahkit.js]

    A shallow embedding of the module [SurahKit] and of the part of the
    JavaScript run time it relies on (strings, truthiness, [Map], [Set],
    promises settled by the environment), followed by the properties of
    the cache and of the five query operations. *)

From Stdlib Require Import Ascii String ZArith NArith.
From stdpp Require Import base option list gmap strings pretty.

Open Scope string_scope.
Open Scope list_scope.

(** ** JavaScript strings and values

    A [string] of Rocq stands for a JavaScript string all of whose UTF-16
    code units lie in U+0000..U+00FF; an [ascii] is one such code unit. *)
Module Js.

Definition code (c : ascii) : N := N_of_ascii c.

(** [WhiteSpace] and [LineTerminator] code points below U+0100, the
    ones [String.prototype.trim] strips: TAB, LF, VT, FF, CR, SP, NBSP. *)
Definition isWhiteSpace (c : ascii) : bool :=
  ((9 <=? code c) && (code c <=? 13) || (code c =? 32) || (code c =? 160))%N.

(** The upper-case letters below U+0100: A-Z and U+00C0..U+00DE without
    the multiplication sign U+00D7. Each has its lower-case form 32
    code points further. *)
Definition isUpper (c : ascii) : bool :=
  ((65 <=? code c) && (code c <=? 90)
   || (192 <=? code c) && (code c <=? 222) && negb (code c =? 215))%N.

Definition lowerChar (c : ascii) : ascii :=
  if isUpper c then ascii_of_N (code c + 32) else c.

(** [s.toLowerCase()] on such strings, where it maps code unit by code
    unit. Beyond U+00FF it does not (a capital sigma is lower-cased by
    its place in the word); see [greekToLowerCase]. *)
Fixpoint toLowerCase (s : string) : string :=
  match s with
  | EmptyString => EmptyString
  | String c s' => String (lowerChar c) (toLowerCase s')
  end.

(** [s.trimStart()] *)
Fixpoint trimStart (s : string) : string :=
  match s with
  | EmptyString => EmptyString
  | String c s' => if isWhiteSpace c then trimStart s' else s
  end.

(** [s.trimEnd()] *)
Fixpoint trimEnd (s : string) : string :=
  match s with
  | EmptyString => EmptyString
  | String c s' =>
      match trimEnd s' with
      | EmptyString => if isWhiteSpace c then EmptyString else String c EmptyString
      | t => String c t
      end
  end.

(** [s.trim()] *)
Definition trim (s : string) : string := trimEnd (trimStart s).

(** [s.startsWith(t)] *)
Fixpoint startsWith (s t : string) {struct t} : bool :=
  match t, s with
  | EmptyString, _ => true
  | String b t', String a s' => if decide (a = b) then startsWith s' t' else false
  | String _ _, EmptyString => false
  end.

(** [s.includes(t)] *)
Fixpoint includes (s t : string) : bool :=
  startsWith s t ||
  match s with
  | EmptyString => false
  | String _ s' => includes s' t
  end.

(** The values the public operations are called with: [undefined],
    [null], a string, or a number whose value is a safe integer (at
    most 2^53 - 1 in absolute value). *)
Inductive value :=
| Undefined
| Null
| Str (s : string)
| Num (n : Z).

(** [ToBoolean]: the test behind [!v]. *)
Definition truthy (v : value) : bool :=
  match v with
  | Undefined | Null => false
  | Str s => negb (bool_decide (s = ""))
  | Num n => negb (bool_decide (n = 0%Z))
  end.

(** [String(v)]; for a number, the digits of a safe integer. *)
Definition ToString (v : value) : string :=
  match v with
  | Undefined => "undefined"
  | Null => "null"
  | Str s => s
  | Num n => pretty n
  end.

(** What a rejected promise carries. *)
Inductive exn :=
| Error (message : string)      (* [new Error(message)], thrown by the module *)
| TypeError                     (* the engine: a method looked up on a value that lacks it *)
| Rejection (reason : string).  (* the reason [fetch(url)] or [res.json()] rejected with *)

End Js.

(** ** The module [SurahKit] *)
Module SurahKit.
Import Js.

(** The typedef [SurahItem]: four string properties. *)
Record SurahItem := {
  id : string;       (* the Surah number, e.g. "1" *)
  surah : string;    (* the name of the Surah *)
  verses : string;   (* the number of verses *)
  text : string      (* the translated text *)
}.

(** What [cache] maps a language to: the promise of the retrieval that
    is under way (promises are numbered in creation order), or the
    array that [res.json()] produced. *)
Inductive entry :=
| Promise (p : nat)
| Data (data : list SurahItem).

(** The two [await]s of the retrieval a promise stands for. *)
Inductive suspension :=
| AwaitFetch   (* [const res = await fetch(url)] *)
| AwaitJson.   (* [const data = await res.json()] *)

Inductive settlement :=
| Pending (at_await : suspension)
| Fulfilled (data : list SurahItem)
| Rejected (error : exn).

(** One [fetchAndCachePromise]: the [safeLanguage] its closure
    captured and how far it got. *)
Record fetchAndCachePromise := {
  safeLanguage : string;
  settled : settlement
}.

(** The two properties read from the [Response] of [fetch]. *)
Record Response := {
  ok : bool;
  status : Z
}.

(** The state the module and its environment share: the [Map] named
    [cache], every [fetchAndCachePromise] created so far, and the URLs
    [fetch] was called with, oldest first. *)
Record state := {
  cache : gmap string entry;
  promises : list fetchAndCachePromise;
  fetched : list string
}.

Definition initial : state :=
  {| cache := ∅; promises := []; fetched := [] |}.

Definition url (safeLanguage : string) : string :=
  "https://cdn.jsdelivr.net/npm/@mdkva/surahkit/data/" +:+ safeLanguage +:+ ".json".

(** The promise an [async] method returns: already settled when the
    body ran to its end without suspending, otherwise tied to promise
    [p] by an [await] (or by returning [p]), with what is left of the
    body to run on the array [p] is fulfilled with. A rejection of [p]
    is passed on as it is, no method catches it. *)
Inductive async (A : Type) :=
| Settled (r : exn + A)
| Awaiting (p : nat) (rest : list SurahItem -> exn + A).
Arguments Settled {A} r.
Arguments Awaiting {A} p rest.

Definition throw {A} (e : exn) : async A := Settled (inl e).

(** [const x = await m; rest x] *)
Definition await {A} (m : async (list SurahItem)) (rest : list SurahItem -> exn + A) : async A :=
  match m with
  | Settled (inl e) => Settled (inl e)
  | Settled (inr x) => Settled (rest x)
  | Awaiting p k => Awaiting p (fun data => match k data with
                                         | inl e => inl e
                                         | inr x => rest x
                                         end)
  end.

(** What the caller holding [m] has received in state [st], if anything. *)
Definition outcome {A} (st : state) (m : async A) : option (exn + A) :=
  match m with
  | Settled r => Some r
  | Awaiting p rest =>
      match promises st !! p with
      | Some {| settled := Fulfilled data |} => Some (rest data)
      | Some {| settled := Rejected e |} => Some (inl e)
      | _ => None
      end
  end.

(** What calling the global [fetch] does before anything is awaited: it
    returns a promise, or it throws (no [fetch] in the environment, a
    replacement that throws). *)
Inductive fetchCall :=
| Returns
| Throws (error : exn).

(** [fetch] as the Fetch standard has it: every failure is a rejection
    of the promise it returns. *)
Definition standardFetch (url : string) : fetchCall := Returns.

(** [loadAll(language)], up to the point where it returns its promise,
    in an environment whose [fetch] is [fetch]. On a miss the inner
    function runs up to [await fetch(url)], so [fetch] has been called,
    and the new promise is stored in [cache] before anything else can
    run. When [fetch(url)] throws, the inner function has already run
    its [catch] block ([cache.delete], then the rejection) by the time
    [cache.set] stores its promise. *)
Definition loadAllWith (fetch : string -> fetchCall) (language : value) (st : state)
  : state * async (list SurahItem) :=
  if negb (truthy language) then (st, throw (Error "Language is required."))
  else
    match language with
    | Str s =>
        let safeLanguage := toLowerCase (trim s) in
        match cache st !! safeLanguage with
        | Some (Data data) => (st, Settled (inr data))
        | Some (Promise p) => (st, Awaiting p inr)
        | None =>
            let p := length (promises st) in
            match fetch (url safeLanguage) with
            | Returns =>
                ({| cache := <[safeLanguage := Promise p]> (cache st);
                    promises := promises st ++ [{| safeLanguage := safeLanguage;
                                                   settled := Pending AwaitFetch |}];
                    fetched := fetched st ++ [url safeLanguage] |},
                 Awaiting p inr)
            | Throws error =>
                ({| cache := <[safeLanguage := Promise p]> (delete safeLanguage (cache st));
                    promises := promises st ++ [{| safeLanguage := safeLanguage;
                                                   settled := Rejected error |}];
                    fetched := fetched st ++ [url safeLanguage] |},
                 Awaiting p inr)
            end
        end
    | _ => (st, throw TypeError)   (* [language.trim] is not a function *)
    end.

(** [loadAll(language)] where [fetch] returns a promise. *)
Definition loadAll (language : value) (st : state) : state * async (list SurahItem) :=
  loadAllWith standardFetch language st.

(** The [catch] block of the inner function, then its rejection. *)
Definition catch (p : nat) (safeLanguage : string) (error : exn) (st : state) : state :=
  {| cache := delete safeLanguage (cache st);
     promises := <[p := {| safeLanguage := safeLanguage; settled := Rejected error |}]> (promises st);
     fetched := fetched st |}.

(** The error thrown for a response that is not [ok]. *)
Definition notFound (safeLanguage : string) (res : Response) : exn :=
  Error ("Language file '" +:+ safeLanguage +:+ ".json' not found (Status: "
         +:+ pretty (status res) +:+ ").").

(** The inner function resumed after [await fetch(url)]: [res] is what
    the promise of [fetch] settled with. *)
Definition resumeFetch (p : nat) (res : exn + Response) (st : state) : state :=
  match promises st !! p with
  | Some {| safeLanguage := safeLanguage; settled := Pending AwaitFetch |} =>
      match res with
      | inl error => catch p safeLanguage error st
      | inr res =>
          if negb (ok res) then catch p safeLanguage (notFound safeLanguage res) st
          else
            {| cache := cache st;
               promises := <[p := {| safeLanguage := safeLanguage;
                                     settled := Pending AwaitJson |}]> (promises st);
               fetched := fetched st |}
      end
  | _ => st
  end.

(** The inner function resumed after [await res.json()]. *)
Definition resumeJson (p : nat) (res : exn + list SurahItem) (st : state) : state :=
  match promises st !! p with
  | Some {| safeLanguage := safeLanguage; settled := Pending AwaitJson |} =>
      match res with
      | inl error => catch p safeLanguage error st
      | inr data =>
          {| cache := <[safeLanguage := Data data]> (cache st);
             promises := <[p := {| safeLanguage := safeLanguage;
                                   settled := Fulfilled data |}]> (promises st);
             fetched := fetched st |}
      end
  | _ => st
  end.

(** [clearCache()] *)
Definition clearCache (st : state) : state :=
  {| cache := ∅; promises := promises st; fetched := fetched st |}.

(** [searchById(language, id)] *)
Definition searchById (language id' : value) (st : state) : state * async SurahItem :=
  if negb (truthy id') then (st, throw (Error "Surah ID is required."))
  else
    let '(st', quran) := loadAll language st in
    (st', await quran (fun quran =>
            let surahId := trim (ToString id') in
            match List.find (fun s => String.eqb (id s) surahId) quran with
            | Some surah => inr surah
            | None =>
                inl (Error ("Surah with ID '" +:+ ToString id' +:+ "' not found in '"
                            +:+ ToString language +:+ "'."))
            end)).

(** [searchByIds(language, ids)]; [ids] is [None] for [undefined] or
    [null], else the elements of the array. *)
Definition searchByIds (language : value) (ids : option (list value)) (st : state)
  : state * async (list SurahItem) :=
  match ids with
  | None | Some [] => (st, Settled (inr []))
  | Some ids =>
      let '(st', quran) := loadAll language st in
      (st', await quran (fun quran =>
              let idSet : gset string :=
                list_to_set (List.map (fun id' => trim (ToString id')) ids) in
              inr (List.filter (fun s => bool_decide (id s ∈ idSet)) quran)))
  end.

(** Lines 118-120 and 134-136: the lower-cased term, then the filter.
    Stated for strings of any kind, with the [toLowerCase] and the
    [includes] of those strings. *)
Definition searchText {S Item : Type} (toLowerCase : S -> S) (includes : S -> S -> bool)
    (field : Item -> S) (keyword : S) (quran : list Item) : list Item :=
  let term := toLowerCase keyword in
  List.filter (fun s => includes (toLowerCase (field s)) term) quran.

(** [searchByName(language, keyword)] *)
Definition searchByName (language keyword : value) (st : state)
  : state * async (list SurahItem) :=
  if negb (truthy keyword) then (st, Settled (inr []))
  else
    let '(st', quran) := loadAll language st in
    (st', await quran (fun quran =>
            match keyword with
            | Str keyword => inr (searchText toLowerCase includes surah keyword quran)
            | _ => inl TypeError   (* [keyword.toLowerCase] is not a function *)
            end)).

(** [searchByPhrase(language, phrase)] *)
Definition searchByPhrase (language phrase : value) (st : state)
  : state * async (list SurahItem) :=
  if negb (truthy phrase) then (st, Settled (inr []))
  else
    let '(st', quran) := loadAll language st in
    (st', await quran (fun quran =>
            match phrase with
            | Str phrase => inr (searchText toLowerCase includes text phrase quran)
            | _ => inl TypeError   (* [phrase.toLowerCase] is not a function *)
            end)).

(** The old API, kept for backward compatibility. *)
Definition load := loadAll.

Definition getById := searchById.

Definition search := searchByPhrase.

End SurahKit.

Import Js SurahKit.

(** ** Runs

    JavaScript runs one piece of code at a time, to its end or to its
    next [await]. A run of the module is therefore a sequence of such
    pieces: calls from the host application and resumptions of a
    retrieval when the promise it awaits is settled by the transport.
    In a run [fetch] returns a promise; a [fetch] that throws is the
    matter of [loadAllWith]. *)
Inductive event :=
| CallLoadAll (language : value)
| CallClearCache
| FetchSettles (p : nat) (res : exn + Response)
| JsonSettles (p : nat) (res : exn + list SurahItem).

(** A call of [loadAll]: its argument and the promise it returned. *)
Record call := {
  argument : value;
  returned : async (list SurahItem)
}.

Definition step (ev : event) (st : state) : state * list call :=
  match ev with
  | CallLoadAll language =>
      let '(st', m) := loadAll language st in
      (st', [{| argument := language; returned := m |}])
  | CallClearCache => (clearCache st, [])
  | FetchSettles p res => (resumeFetch p res st, [])
  | JsonSettles p res => (resumeJson p res st, [])
  end.

Fixpoint run (evs : list event) (st : state) : state * list call :=
  match evs with
  | [] => (st, [])
  | ev :: evs' =>
      let '(st1, calls1) := step ev st in
      let '(st2, calls2) := run evs' st1 in
      (st2, calls1 ++ calls2)
  end.


(** [ev] resumes a retrieval of [key] at the [await] it is suspended at
    and makes it fail: a rejected [fetch], a response that is not [ok],
    a rejected [res.json()]. *)
Definition fails (key : string) (ev : event) (st : state) : bool :=
  match ev with
  | FetchSettles p res =>
      match promises st !! p with
      | Some {| safeLanguage := k; settled := Pending AwaitFetch |} =>
          bool_decide (k = key)
          && match res with inl _ => true | inr res => negb (ok res) end
      | _ => false
      end
  | JsonSettles p res =>
      match promises st !! p with
      | Some {| safeLanguage := k; settled := Pending AwaitJson |} =>
          bool_decide (k = key)
          && match res with inl _ => true | inr _ => false end
      | _ => false
      end
  | _ => false
  end.

(** A window for [key]: no retrieval of [key] fails and the cache is
    not cleared. *)
Fixpoint window (key : string) (evs : list event) (st : state) : bool :=
  match evs with
  | [] => true
  | ev :: evs' =>
      negb (fails key ev st)
      && negb (match ev with CallClearCache => true | _ => false end)
      && window key evs' (fst (step ev st))
  end.

(** How many times [fetch] was called for [key]. *)
Definition fetches (key : string) (st : state) : nat :=
  length (List.filter (fun u => String.eqb u (url key)) (fetched st)).

(** The key a call of [loadAll] looks up, when it gets that far. *)
Definition keyOf (language : value) : option string :=
  match language with
  | Str s => if bool_decide (s = "") then None else Some (toLowerCase (trim s))
  | _ => None
  end.

(** ** Vocabulary of the properties *)

(** Strings made of white space only. *)
Fixpoint blank (s : string) : bool :=
  match s with
  | EmptyString => true
  | String c s' => isWhiteSpace c && blank s'
  end.

(** [l1] and [l2] differ only in the white space around them and in the
    case of their letters. *)
Definition sameUpToCaseAndSpace (l1 l2 : string) : Prop :=
  exists w1 c1 w1' w2 c2 w2',
    blank w1 = true /\ blank w1' = true /\ blank w2 = true /\ blank w2' = true /\
    l1 = w1 +:+ c1 +:+ w1' /\ l2 = w2 +:+ c2 +:+ w2' /\
    toLowerCase c1 = toLowerCase c2.


(** The numbers [Num] stands for: the safe integers, which [String(n)]
    writes with all their digits and no exponent. *)
Definition safeInteger (n : Z) : Prop := (- (2 ^ 53 - 1) <= n <= 2 ^ 53 - 1)%Z.

(** The values whose [String(v)] is [ToString v]. *)
Definition printable (v : value) : Prop :=
  match v with
  | Num n => safeInteger n
  | _ => True
  end.

(** Beyond U+00FF lower-casing is no longer a matter of single code
    units. The seven letters needed to see it, as a string type of their
    own: capital omicron, delta and sigma, their small forms, and the
    small sigma that ends a word. All seven are cased letters. *)
Inductive greek :=
| OMICRON
| DELTA
| SIGMA
| omicron
| delta
| sigma
| final_sigma.

#[global] Instance greek_eq_dec : EqDecision greek.
Proof. solve_decision. Defined.





(** [found] is [quran] with exactly the items that satisfy [P] kept, each
    at its place. *)
Inductive Selected (P : SurahItem -> Prop) : list SurahItem -> list SurahItem -> Prop :=
| Selected_nil : Selected P [] []
| Selected_keep s quran found :
    P s -> Selected P quran found -> Selected P (s :: quran) (s :: found)
| Selected_drop s quran found :
    ~ P s -> Selected P quran found -> Selected P (s :: quran) found.

(** The cache entry of [key] is a promise exactly when that promise is a
    retrieval of [key] that has not settled. Every run that does not
    clear the cache keeps it so. *)
Definition coherent (key : string) (st : state) : Prop :=
  forall p, cache st !! key = Some (Promise p) <->
            exists a, promises st !! p = Some {| safeLanguage := key; settled := Pending a |}.

(** The call [c] of [loadAll] for [key] shares the entry of [key]: it
    holds the promise stored there, or has received the array stored
    there. *)
Definition joined (key : string) (st : state) (c : call) : Prop :=
  match cache st !! key with
  | Some (Promise p) => returned c = Awaiting p inr
  | Some (Data data) => outcome st (returned c) = Some (inr data)
  | None => False
  end.

(** What one piece of code does to the state. *)
Inductive change :=
| Unchanged
| Registered (key : string)
| Advanced (p : nat) (key : string)
| Stored (p : nat) (key : string) (data : list SurahItem)
| Failed (p : nat) (key : string) (error : exn)
| Cleared.

Inductive changes (st : state) : change -> state -> Prop :=
| changes_unchanged :
    changes st Unchanged st
| changes_registered key :
    cache st !! key = None ->
    changes st (Registered key)
      {| cache := <[key := Promise (length (promises st))]> (cache st);
         promises := promises st ++ [{| safeLanguage := key; settled := Pending AwaitFetch |}];
         fetched := fetched st ++ [url key] |}
| changes_advanced p key :
    promises st !! p = Some {| safeLanguage := key; settled := Pending AwaitFetch |} ->
    changes st (Advanced p key)
      {| cache := cache st;
         promises := <[p := {| safeLanguage := key; settled := Pending AwaitJson |}]> (promises st);
         fetched := fetched st |}
| changes_stored p key data :
    promises st !! p = Some {| safeLanguage := key; settled := Pending AwaitJson |} ->
    changes st (Stored p key data)
      {| cache := <[key := Data data]> (cache st);
         promises := <[p := {| safeLanguage := key; settled := Fulfilled data |}]> (promises st);
         fetched := fetched st |}
| changes_failed p key a error :
    promises st !! p = Some {| safeLanguage := key; settled := Pending a |} ->
    changes st (Failed p key error) (catch p key error st)
| changes_cleared :
    changes st Cleared (clearCache st).

(** The change is a call of [fetch] for [key]. *)
Definition registers (key : string) (c : change) : bool :=
  match c with
  | Registered k => bool_decide (k = key)
  | _ => false
  end.

(** The changes a window for [key] excludes. *)
Definition disturbs (key : string) (c : change) : Prop :=
  match c with
  | Cleared => True
  | Failed _ k _ => k = key
  | _ => False
  end.


(** The events that bring a retrieval suspended at [a] to a successful
    end. *)
Definition completion (p : nat) (a : suspension) (res : Response) (data : list SurahItem)
  : list event :=
  match a with
  | AwaitFetch => [FetchSettles p (inr res); JsonSettles p (inr data)]
  | AwaitJson => [JsonSettles p (inr data)]
  end.

(** A partition of two items, and the state in which it has been loaded
    for ["english"]. *)
Definition opener : SurahItem :=
  {| id := "1"; surah := "The Opener"; verses := "7"; text := "In the name of God" |}.

Definition yasin : SurahItem :=
  {| id := "36"; surah := "Ya-Sin"; verses := "83"; text := "Ya, Seen. By the wise Quran" |}.

Definition loaded : state :=
  (run [CallLoadAll (Str "english");
        FetchSettles 0 (inr {| ok := true; status := 200 |});
        JsonSettles 0 (inr [opener; yasin])] initial).1.

(** The state in which the retrieval of ["english"] is suspended at
    [await res.json()]. *)
Definition inFlight : state :=
  (run [CallLoadAll (Str "english");
        FetchSettles 0 (inr {| ok := true; status := 200 |})] initial).1.

(** Three calls for the same partition, two of them before the
    retrieval has finished and one after. *)
Definition session : list event :=
  [CallLoadAll (Str "English ");
   CallLoadAll (Str "english");
   FetchSettles 0 (inr {| ok := true; status := 200 |});
   JsonSettles 0 (inr [opener; yasin]);
   CallLoadAll (Str " ENGLISH")].

(** What the cache, the promises and the list of fetches have to do with
    each other in every state of a run from [initial], cleared or not:
    a promise in the cache is a retrieval of its key that has not
    settled; an array in the cache is what a retrieval of its key was
    fulfilled with; the URLs fetched are those of the promises, in
    order; the language of a promise is a trimmed, lower-cased argument
    that was not empty. *)
Record sound (st : state) : Prop := {
  sound_promise :
    forall key p, cache st !! key = Some (Promise p) ->
      exists a, promises st !! p = Some {| safeLanguage := key; settled := Pending a |};
  sound_data :
    forall key data, cache st !! key = Some (Data data) ->
      exists p, promises st !! p = Some {| safeLanguage := key; settled := Fulfilled data |};
  sound_fetched :
    fetched st = (fun r => url (safeLanguage r)) <$> promises st;
  sound_keys :
    forall p r, promises st !! p = Some r ->
      exists s, s <> "" /\ safeLanguage r = toLowerCase (trim s)
}.

(** The key an event is about: the one a call looks up, the one of the
    retrieval a settlement resumes. *)
Definition subject (ev : event) (st : state) : option string :=
  match ev with
  | CallLoadAll language => keyOf language
  | FetchSettles p _ | JsonSettles p _ => safeLanguage <$> promises st !! p
  | CallClearCache => None
  end.

(** A run in which the retrieval of ["english"] fails, is retried and
    succeeds, and the cache is cleared in between. *)
Definition eventful : list event :=
  [CallLoadAll (Str "english");
   FetchSettles 0 (inr {| ok := false; status := 503 |});
   CallLoadAll (Str "English");
   CallClearCache;
   CallLoadAll (Str "ENGLISH");
   FetchSettles 1 (inr {| ok := true; status := 200 |});
   JsonSettles 1 (inr [opener]);
   FetchSettles 2 (inr {| ok := true; status := 200 |})].

(** [ev] resumes a retrieval of [key] at [await res.json()] with the
    array [res.json()] is fulfilled with. *)
Definition succeeds (key : string) (ev : event) (st : state) : option (list SurahItem) :=
  match ev with
  | JsonSettles p (inr data) =>
      match promises st !! p with
      | Some {| safeLanguage := k; settled := Pending AwaitJson |} =>
          if bool_decide (k = key) then Some data else None
      | _ => None
      end
  | _ => None
  end.

(** The state after [clearCache()] ran during the retrieval of
    ["english"], and a window that starts there: a call, the retrieval
    that was under way succeeds, a second call, the retrieval of the
    first call succeeds. *)
Definition raced : state :=
  (run [CallLoadAll (Str "english"); CallClearCache] initial).1.

Definition raceWindow : list event :=
  [CallLoadAll (Str "english");
   FetchSettles 0 (inr {| ok := true; status := 200 |});
   JsonSettles 0 (inr [opener]);
   CallLoadAll (Str "english");
   FetchSettles 1 (inr {| ok := true; status := 200 |});
   JsonSettles 1 (inr [opener; yasin])].



(** ** Facts about the string primitives *)
Section StringFacts.

(** stdpp keeps [String.append] folded under [simpl]; these two
    equations unfold it by hand. *)
Lemma string_app_nil_l (s : string) : "" +:+ s = s.
Proof. reflexivity. Qed.

Lemma string_app_cons (c : ascii) (s t : string) : String c s +:+ t = String c (s +:+ t).
Proof. reflexivity. Qed.

Lemma string_app_nil_r (s : string) : s +:+ "" = s.
Proof. induction s as [|c s IH]; [done | by rewrite string_app_cons, IH]. Qed.

Lemma string_app_assoc (a b c : string) : (a +:+ b) +:+ c = a +:+ (b +:+ c).
Proof. induction a as [|x a IH]; [done | by rewrite !string_app_cons, IH]. Qed.

Lemma string_length_app (a b : string) :
  String.length (a +:+ b) = String.length a + String.length b.
Proof. induction a as [|x a IH]; [done | by rewrite string_app_cons; simpl; rewrite IH]. Qed.

Lemma string_app_inj_r (a b t : string) : a +:+ t = b +:+ t -> a = b.
Proof.
  revert b. induction a as [|x a IH]; intros [|y b] H;
    rewrite ?string_app_nil_l, ?string_app_cons in H.
  - done.
  - apply (f_equal String.length) in H. simpl in H.
    rewrite string_length_app in H. lia.
  - apply (f_equal String.length) in H. simpl in H.
    rewrite string_length_app in H. lia.
  - injection H as -> H. f_equal. by apply IH.
Qed.

(** Lower-casing never turns a character into white space or back. *)
Lemma isWhiteSpace_lowerChar (c : ascii) : isWhiteSpace (lowerChar c) = isWhiteSpace c.
Proof. destruct c as [[] [] [] [] [] [] [] []]; reflexivity. Qed.

Lemma lowerChar_idemp (c : ascii) : lowerChar (lowerChar c) = lowerChar c.
Proof. destruct c as [[] [] [] [] [] [] [] []]; reflexivity. Qed.

Lemma toLowerCase_idemp (s : string) : toLowerCase (toLowerCase s) = toLowerCase s.
Proof. induction s as [|c s IH]; simpl; [done | by rewrite lowerChar_idemp, IH]. Qed.



Lemma trimStart_blank_app (w s : string) :
  blank w = true -> trimStart (w +:+ s) = trimStart s.
Proof.
  induction w as [|c w IH]; simpl; [done |].
  intros [Hc Hw]%andb_true_iff. rewrite ?string_app_cons; simpl.
  rewrite ?Hc. by apply IH.
Qed.

Lemma trimStart_blank (w : string) : blank w = true -> trimStart w = "".
Proof.
  induction w as [|c w IH]; simpl; [done |].
  intros [Hc Hw]%andb_true_iff. rewrite Hc. by apply IH.
Qed.

Lemma trimEnd_blank (w : string) : blank w = true -> trimEnd w = "".
Proof.
  induction w as [|c w IH]; simpl; [done |].
  intros [Hc Hw]%andb_true_iff. by rewrite (IH Hw), Hc.
Qed.

Lemma trimEnd_app_blank (s w : string) :
  blank w = true -> trimEnd (s +:+ w) = trimEnd s.
Proof.
  intros Hw. induction s as [|c s IH].
  - by apply trimEnd_blank.
  - rewrite ?string_app_cons; simpl. by rewrite IH.
Qed.

Lemma trim_app_blank (s w : string) :
  blank w = true -> trimEnd (trimStart (s +:+ w)) = trimEnd (trimStart s).
Proof.
  intros Hw. induction s as [|c s IH].
  - rewrite string_app_nil_l, trimStart_blank by done. done.
  - rewrite ?string_app_cons; simpl.
    destruct (isWhiteSpace c); [done |].
    by rewrite <- (trimEnd_app_blank (String c s) w Hw).
Qed.

(** White space around a string does not survive [trim]. *)
Lemma trim_surrounded (w1 s w2 : string) :
  blank w1 = true -> blank w2 = true -> trim (w1 +:+ s +:+ w2) = trim s.
Proof.
  intros H1 H2. unfold trim.
  by rewrite trimStart_blank_app, trim_app_blank.
Qed.

Lemma trimStart_toLowerCase (s : string) :
  trimStart (toLowerCase s) = toLowerCase (trimStart s).
Proof.
  induction s as [|c s IH]; simpl; [done |].
  rewrite isWhiteSpace_lowerChar. by destruct (isWhiteSpace c).
Qed.

Lemma trimEnd_toLowerCase (s : string) :
  trimEnd (toLowerCase s) = toLowerCase (trimEnd s).
Proof.
  induction s as [|c s IH]; simpl; [done |].
  rewrite IH, isWhiteSpace_lowerChar.
  destruct (trimEnd s); simpl; [by destruct (isWhiteSpace c) | done].
Qed.

Lemma trim_toLowerCase (s : string) : trim (toLowerCase s) = toLowerCase (trim s).
Proof. unfold trim. by rewrite trimStart_toLowerCase, trimEnd_toLowerCase. Qed.

Lemma url_inj (k1 k2 : string) : url k1 = url k2 -> k1 = k2.
Proof.
  unfold SurahKit.url. intros H.
  apply (inj (String.app _)) in H. by apply string_app_inj_r in H.
Qed.

End StringFacts.

(** ** The query layer *)
Section QueryLayer.

Lemma outcome_await {A} (st : state) (m : async (list SurahItem))
    (rest : list SurahItem -> exn + A) (quran : list SurahItem) :
  outcome st m = Some (inr quran) -> outcome st (await m rest) = Some (rest quran).
Proof.
  destruct m as [[e|x]|p k]; simpl; [done | by intros [= ->] |].
  destruct (promises st !! p) as [[key [a|data|e]]|]; try done.
  intros [= Hk]. by rewrite Hk.
Qed.

Lemma find_some_split {A} (f : A -> bool) (l : list A) (x : A) :
  List.find f l = Some x ->
  exists before after,
    l = before ++ x :: after /\ f x = true /\ Forall (fun y => f y = false) before.
Proof.
  induction l as [|y l IH]; simpl; [done |].
  destruct (f y) eqn:Hy.
  - intros [= ->]. by exists [], l.
  - intros (before & after & -> & Hx & Hb)%IH.
    exists (y :: before), after. by repeat split; [| constructor].
Qed.

Lemma find_none_all {A} (f : A -> bool) (l : list A) :
  List.find f l = None -> Forall (fun y => f y = false) l.
Proof.
  induction l as [|y l IH]; simpl; [by constructor |].
  destruct (f y) eqn:Hy; [done |]. intros H. constructor; auto.
Qed.

Lemma Selected_filter (P : SurahItem -> Prop) (f : SurahItem -> bool) (quran : list SurahItem) :
  (forall s, f s = true <-> P s) -> Selected P quran (List.filter f quran).
Proof.
  intros Hf. induction quran as [|s quran IH]; simpl; [constructor |].
  destruct (f s) eqn:Hs.
  - apply Selected_keep; [by apply Hf | done].
  - apply Selected_drop; [| done]. rewrite <- Hf. congruence.
Qed.

(** [Selected] determines what is found, keeps the order of the
    partition, and keeps an item exactly when it satisfies [P]. *)
Lemma Selected_unique (P : SurahItem -> Prop) (quran found1 found2 : list SurahItem) :
  Selected P quran found1 -> Selected P quran found2 -> found1 = found2.
Proof.
  intros H1. revert found2.
  induction H1 as [|s quran found HP _ IH|s quran found HP _ IH];
    intros found2 H2; inversion H2; subst; try done.
  - f_equal. by apply IH.
  - by apply IH.
Qed.

Lemma Selected_sublist (P : SurahItem -> Prop) (quran found : list SurahItem) :
  Selected P quran found -> sublist found quran.
Proof. induction 1; by constructor. Qed.

Lemma Selected_elem_of (P : SurahItem -> Prop) (quran found : list SurahItem) (s : SurahItem) :
  Selected P quran found -> s ∈ found <-> s ∈ quran /\ P s.
Proof.
  induction 1 as [|x quran found HP _ IH|x quran found HP _ IH].
  - split; [by intros ?%elem_of_nil | by intros [?%elem_of_nil _]].
  - rewrite !elem_of_cons, IH.
    split; [intros [->|[? ?]]; auto | intros [[->|?] ?]; auto].
  - rewrite elem_of_cons, IH.
    split; [intros [? ?]; auto | intros [[->|?] ?]; [done | auto]].
Qed.

Lemma blank_normalizes_to_empty (w : string) : blank w = true -> toLowerCase (trim w) = "".
Proof. intros Hw. unfold trim. by rewrite trimStart_blank. Qed.

(** The query operations touch the state through [loadAll] only: each
    either returns at once or makes one call of [loadAll]. *)
Lemma search_calls_loadAll (language query : value) (ids : option (list value)) (st : state) :
  (searchById language query st).1 = (if truthy query then (loadAll language st).1 else st)
  /\ (searchByName language query st).1 = (if truthy query then (loadAll language st).1 else st)
  /\ (searchByPhrase language query st).1
     = (if truthy query then (loadAll language st).1 else st)
  /\ (searchByIds language ids st).1
     = match ids with
       | None | Some [] => st
       | Some (_ :: _) => (loadAll language st).1
       end.
Proof.
  unfold searchById, searchByName, searchByPhrase, searchByIds.
  destruct (truthy query), ids as [[|i ids]|], (loadAll language st); done.
Qed.

(** C4. With an id that is not empty, a string or a safe integer, on a
    partition [quran] that [loadAll] resolved to, [searchById] yields
    the first item whose [id] is the string [String(id).trim()],
    compared as strings; when no item has that [id] it fails with the
    not-found error. *)
Theorem searchById_first_exact_match
    (language id' : value) (st st2 : state) (quran : list SurahItem) :
  printable id' ->
  truthy id' = true ->
  outcome st2 (loadAll language st).2 = Some (inr quran) ->
  let surahId := trim (ToString id') in
  let result := outcome st2 (searchById language id' st).2 in
  (exists before surah after,
      quran = before ++ surah :: after /\
      id surah = surahId /\
      Forall (fun s => id s <> surahId) before /\
      result = Some (inr surah))
  \/
  (Forall (fun s => id s <> surahId) quran /\
   result = Some (inl (Error ("Surah with ID '" +:+ ToString id' +:+ "' not found in '"
                              +:+ ToString language +:+ "'.")))).
Proof.
  intros _ Hid Hquran surahId result. subst result.
  unfold searchById. rewrite Hid. simpl negb. cbv iota.
  destruct (loadAll language st) as [st1 m] eqn:Hload. simpl in Hquran |- *.
  rewrite (outcome_await _ _ _ _ Hquran). fold surahId.
  destruct (List.find _ quran) as [surah|] eqn:Hfind.
  - left. apply find_some_split in Hfind as (before & after & -> & Heq & Hb).
    exists before, surah, after.
    split; [done |]. split; [by apply String.eqb_eq |]. split; [| done].
    eapply Forall_impl; [exact Hb |]. intros s Hs. by apply String.eqb_neq.
  - right. split; [| done]. apply find_none_all in Hfind.
    eapply Forall_impl; [exact Hfind |]. intros s Hs. by apply String.eqb_neq.
Qed.

Lemma searchById_first_exact_match_witness :
  printable (Str " 36 ") /\
  truthy (Str " 36 ") = true /\
  outcome loaded (loadAll (Str "English") loaded).2 = Some (inr [opener; yasin]) /\
  ((exists before surah after,
       [opener; yasin] = before ++ surah :: after /\
       id surah = "36" /\
       Forall (fun s => id s <> "36") before /\
       outcome loaded (searchById (Str "English") (Str " 36 ") loaded).2 = Some (inr surah))
   \/
   (Forall (fun s => id s <> "36") [opener; yasin] /\
    outcome loaded (searchById (Str "English") (Str " 36 ") loaded).2
    = Some (inl (Error "Surah with ID ' 36 ' not found in 'English'.")))).
Proof.
  split; [exact I |]. split; [reflexivity |]. split; [reflexivity |].
  exact (searchById_first_exact_match (Str "English") (Str " 36 ") loaded loaded
           [opener; yasin] I eq_refl eq_refl).
Defined.

(** The two lookups of the specification, and ids that differ as
    strings. *)
Example searchById_yasin :
  outcome loaded (searchById (Str "english") (Str "36") loaded).2 = Some (inr yasin)
  /\ outcome loaded (searchById (Str "english") (Num 36) loaded).2 = Some (inr yasin)
  /\ outcome loaded (searchById (Str "english") (Str "99") loaded).2
     = Some (inl (Error "Surah with ID '99' not found in 'english'."))
  /\ outcome loaded (searchById (Str "english") (Str "036") loaded).2
     = Some (inl (Error "Surah with ID '036' not found in 'english'.")).
Proof. repeat split; reflexivity. Qed.

(** C5. [searchByIds] answers an absent or empty [ids] with the empty
    array and leaves the state as it is; otherwise, for [ids] that are
    strings or safe integers, on a partition [quran] that [loadAll]
    resolved to, it yields [quran] restricted to the items whose [id] is
    [String(i).trim()] for some [i] of [ids], each kept once at its
    place, however often [i] occurs in [ids]. *)
Theorem searchByIds_selects
    (language : value) (ids : list value) (st st2 : state) (quran : list SurahItem) :
  searchByIds language None st = (st, Settled (inr [])) /\
  searchByIds language (Some []) st = (st, Settled (inr [])) /\
  (ids <> [] ->
   Forall printable ids ->
   outcome st2 (loadAll language st).2 = Some (inr quran) ->
   exists found,
     outcome st2 (searchByIds language (Some ids) st).2 = Some (inr found) /\
     Selected (fun s => exists i, i ∈ ids /\ id s = trim (ToString i)) quran found).
Proof.
  split; [done |]. split; [done |]. intros Hne _ Hquran.
  destruct (loadAll language st) as [st1 m] eqn:Hload. simpl in Hquran.
  destruct ids as [|i0 ids]; [done |].
  unfold searchByIds. cbv beta iota. rewrite Hload. cbn [snd].
  rewrite (outcome_await _ _ _ _ Hquran). eexists. split; [done |].
  apply Selected_filter. intros s.
  rewrite bool_decide_eq_true, elem_of_list_to_set.
  change (List.map ?f ?l) with (f <$> l). rewrite list_elem_of_fmap.
  split; intros (i & H1 & H2); exists i; done.
Qed.

Lemma searchByIds_selects_witness :
  [Str " 36"; Str "1 "; Num 36] <> [] /\
  Forall printable [Str " 36"; Str "1 "; Num 36] /\
  outcome loaded (loadAll (Str "english") loaded).2 = Some (inr [opener; yasin]) /\
  exists found,
    outcome loaded (searchByIds (Str "english") (Some [Str " 36"; Str "1 "; Num 36]) loaded).2
    = Some (inr found) /\
    Selected (fun s => exists i, i ∈ [Str " 36"; Str "1 "; Num 36] /\ id s = trim (ToString i))
             [opener; yasin] found.
Proof.
  assert (Hprintable : Forall printable [Str " 36"; Str "1 "; Num 36]).
  { repeat constructor; unfold safeInteger; lia. }
  split; [discriminate |]. split; [exact Hprintable |]. split; [reflexivity |].
  exact (proj2 (proj2 (searchByIds_selects (Str "english") [Str " 36"; Str "1 "; Num 36]
                         loaded loaded [opener; yasin]))
           ltac:(discriminate) Hprintable eq_refl).
Defined.

(** The example of the specification: both items once, in the order of
    the partition. *)
Example searchByIds_36_1_36 :
  outcome loaded (searchByIds (Str "english") (Some [Str "36"; Str "1"; Str "36"]) loaded).2
  = Some (inr [opener; yasin])
  /\ outcome loaded (searchByIds (Str "english") (Some [Str " 36"; Str "1 "; Num 36]) loaded).2
     = Some (inr [opener; yasin]).
Proof. split; reflexivity. Qed.


(** The filter keeps an item exactly when its lower-cased field includes
    the lower-cased keyword, whatever the strings and their lower-casing
    are. *)
Lemma searchText_spec {S Item : Type} (lower : S -> S) (incl : S -> S -> bool)
    (field : Item -> S) (keyword : S) (quran : list Item) (x : Item) :
  In x (searchText lower incl field keyword quran)
  <-> In x quran /\ incl (lower (field x)) (lower keyword) = true.
Proof. unfold searchText. apply List.filter_In. Qed.




Example searchByName_opener :
  outcome loaded (searchByName (Str "english") (Str "OPEN") loaded).2 = Some (inr [opener])
  /\ outcome loaded (searchByPhrase (Str "english") (Str "quran") loaded).2 = Some (inr [yasin])
  /\ outcome loaded (searchByPhrase (Str "english") (Str "e") loaded).2
     = Some (inr [opener; yasin])
  /\ outcome loaded (searchByName (Str "english") (Str "mankind") loaded).2 = Some (inr []).
Proof. repeat split; reflexivity. Qed.

(** C8. [loadAll] called with [undefined], [null] or the empty string
    fails with the language-required error, and it fails with that error
    exactly when the argument as passed is falsy, so the test comes
    before [trim] and [toLowerCase]; [searchById] called with [""],
    [null] or [undefined] as id fails with the id-required error. In
    each case the cache, the promises and the list of fetches are what
    they were. *)
Theorem invalid_input_rejected_before_retrieval (language : value) (st : state) :
  loadAll Undefined st = (st, throw (Error "Language is required.")) /\
  loadAll Null st = (st, throw (Error "Language is required.")) /\
  loadAll (Str "") st = (st, throw (Error "Language is required.")) /\
  ((loadAll language st).2 = throw (Error "Language is required.") <-> truthy language = false) /\
  searchById language (Str "") st = (st, throw (Error "Surah ID is required.")) /\
  searchById language Null st = (st, throw (Error "Surah ID is required.")) /\
  searchById language Undefined st = (st, throw (Error "Surah ID is required.")).
Proof.
  repeat (split; [done |]). split; [| done].
  unfold loadAll, loadAllWith, standardFetch. destruct (truthy language) eqn:Htruthy; simpl.
  - split; [| done].
    destruct language as [| |s|n]; try done.
    by destruct (cache st !! toLowerCase (trim s)) as [[p|data]|].
  - done.
Qed.

(** What [loadAll] can return. *)
Lemma loadAll_returns (language : value) (st : state) :
  (loadAll language st).2 = throw (Error "Language is required.")
  \/ (loadAll language st).2 = throw TypeError
  \/ (exists data, (loadAll language st).2 = Settled (inr data))
  \/ (exists p, (loadAll language st).2 = Awaiting p inr).
Proof.
  unfold loadAll, loadAllWith, standardFetch. destruct (truthy language); simpl; [| by left].
  destruct language as [| |s|n]; simpl; auto.
  destruct (cache st !! toLowerCase (trim s)) as [[p|data]|]; simpl; eauto 6.
Qed.

(** C9. The number [0] as id is taken for a missing id: [searchById]
    fails with the id-required error and leaves the state as it is. It
    fails with that error exactly when the id as passed is falsy, and
    among the integers only [0] is. *)
Theorem searchById_zero_is_rejected (language id' : value) (n : Z) (st : state) :
  searchById language (Num 0) st = (st, throw (Error "Surah ID is required.")) /\
  ((searchById language id' st).2 = throw (Error "Surah ID is required.")
   <-> truthy id' = false) /\
  (truthy (Num n) = false <-> n = 0%Z).
Proof.
  split; [done |]. split.
  - unfold searchById. destruct (truthy id') eqn:Htruthy; simpl; [| done].
    split; [| done].
    destruct (loadAll_returns language st) as [H | [H | [[data H] | [p H]]]];
      destruct (loadAll language st) as [st1 m]; simpl in H; subst m; simpl; try done.
    destruct (List.find _ data); [done |].
    by intros [= H].
  - simpl. rewrite negb_false_iff, bool_decide_eq_true. done.
Qed.

End QueryLayer.

(** ** The partition cache *)
Section PartitionCache.

Lemma keyOf_Some (language : value) (key : string) :
  keyOf language = Some key ->
  exists s, language = Str s /\ s <> "" /\ key = toLowerCase (trim s).
Proof.
  destruct language as [| |s|n]; simpl; try done.
  case_bool_decide; [done |]. intros [= <-]. by exists s.
Qed.

Lemma keyOf_Str (s : string) : s <> "" -> keyOf (Str s) = Some (toLowerCase (trim s)).
Proof. intros Hs. simpl. by rewrite bool_decide_eq_false_2. Qed.

(** A call that gets no further than its argument leaves the state alone. *)
Lemma loadAll_no_key (language : value) (st : state) :
  keyOf language = None -> (loadAll language st).1 = st.
Proof.
  unfold loadAll, loadAllWith, standardFetch. destruct language as [| |s|n]; simpl; try done.
  - by case_bool_decide.
  - by destruct (negb (bool_decide (n = 0%Z))).
Qed.

Lemma loadAll_hit (language : value) (key : string) (e : entry) (st : state) :
  keyOf language = Some key -> cache st !! key = Some e ->
  loadAll language st
  = (st, match e with Promise p => Awaiting p inr | Data data => Settled (inr data) end).
Proof.
  intros (s & -> & Hs & ->)%keyOf_Some He. unfold loadAll, loadAllWith, standardFetch. simpl.
  rewrite bool_decide_eq_false_2 by done. simpl. rewrite He. by destruct e.
Qed.

Lemma loadAll_miss (language : value) (key : string) (st : state) :
  keyOf language = Some key -> cache st !! key = None ->
  loadAll language st
  = ({| cache := <[key := Promise (length (promises st))]> (cache st);
        promises := promises st ++ [{| safeLanguage := key; settled := Pending AwaitFetch |}];
        fetched := fetched st ++ [url key] |},
     Awaiting (length (promises st)) inr).
Proof.
  intros (s & -> & Hs & ->)%keyOf_Some He. unfold loadAll, loadAllWith, standardFetch. simpl.
  rewrite bool_decide_eq_false_2 by done. simpl. by rewrite He.
Qed.

(** Calling again at once changes nothing and returns what the first
    call returned. *)
Lemma loadAll_again (language : value) (st : state) :
  loadAll language (loadAll language st).1
  = ((loadAll language st).1, (loadAll language st).2).
Proof.
  destruct (keyOf language) as [key|] eqn:Hkey.
  - destruct (cache st !! key) as [e|] eqn:He.
    + rewrite (loadAll_hit _ _ _ _ Hkey He). simpl.
      by rewrite (loadAll_hit _ _ _ _ Hkey He).
    + rewrite (loadAll_miss _ _ _ Hkey He). simpl.
      rewrite (loadAll_hit language key (Promise (length (promises st))) _ Hkey); [done |].
      simpl. by rewrite lookup_insert_eq.
  - rewrite (loadAll_no_key _ _ Hkey).
    pose proof (loadAll_no_key _ st Hkey) as Hst.
    destruct (loadAll language st) as [st1 m]. simpl in Hst |- *. by subst st1.
Qed.

Lemma sameUpToCaseAndSpace_key (l1 l2 : string) :
  sameUpToCaseAndSpace l1 l2 -> toLowerCase (trim l1) = toLowerCase (trim l2).
Proof.
  intros (w1 & c1 & w1' & w2 & c2 & w2' & H1 & H1' & H2 & H2' & -> & -> & Hc).
  rewrite !trim_surrounded by done.
  by rewrite <- !trim_toLowerCase, Hc.
Qed.

(** C7. Two non-empty strings that differ only in surrounding white
    space and in the case of letters look up the same key: [loadAll]
    does the same with either, and the call with the second, made after
    the call with the first, changes nothing (no promise is created, no
    fetch is issued) and returns the promise or the array the first call
    returned. *)
Theorem loadAll_coalesces_keys (l1 l2 : string) (st : state) :
  l1 <> "" -> l2 <> "" -> sameUpToCaseAndSpace l1 l2 ->
  keyOf (Str l1) = keyOf (Str l2) /\
  loadAll (Str l1) st = loadAll (Str l2) st /\
  loadAll (Str l2) (loadAll (Str l1) st).1
  = ((loadAll (Str l1) st).1, (loadAll (Str l1) st).2).
Proof.
  intros H1 H2 Hsame. apply sameUpToCaseAndSpace_key in Hsame.
  assert (Hload : forall st', loadAll (Str l1) st' = loadAll (Str l2) st').
  { intros st'. unfold loadAll, loadAllWith, standardFetch. simpl.
    rewrite !bool_decide_eq_false_2 by done. simpl. by rewrite Hsame. }
  split; [by rewrite !keyOf_Str, Hsame |]. split; [done |].
  rewrite <- Hload. apply loadAll_again.
Qed.

Lemma loadAll_coalesces_keys_witness :
  "English " <> "" /\ "english" <> "" /\
  keyOf (Str "English ") = keyOf (Str "english") /\
  loadAll (Str "English ") initial = loadAll (Str "english") initial /\
  loadAll (Str "english") (loadAll (Str "English ") initial).1
  = ((loadAll (Str "English ") initial).1, (loadAll (Str "English ") initial).2).
Proof.
  split; [discriminate |]. split; [discriminate |].
  apply (loadAll_coalesces_keys "English " "english" initial); [discriminate | discriminate |].
  exists "", "English", " ", "", "english", "".
  repeat split; reflexivity.
Defined.

(** C10. A language made of white space only is not empty, so it passes
    the test; its key is the empty string, and on a miss [loadAll]
    stores a promise under [""] and fetches the URL of [""]. *)
Theorem loadAll_blank_language_is_fetched (w : string) (st : state) :
  w <> "" -> blank w = true ->
  keyOf (Str w) = Some "" /\
  (loadAll (Str w) st).2 <> throw (Error "Language is required.") /\
  (cache st !! "" = None ->
   loadAll (Str w) st
   = ({| cache := <["" := Promise (length (promises st))]> (cache st);
         promises := promises st ++ [{| safeLanguage := ""; settled := Pending AwaitFetch |}];
         fetched := fetched st ++ [url ""] |},
      Awaiting (length (promises st)) inr)).
Proof.
  intros Hw Hblank.
  assert (Hkey : keyOf (Str w) = Some "").
  { by rewrite keyOf_Str, blank_normalizes_to_empty. }
  split; [done |]. split.
  - destruct (cache st !! "") as [e|] eqn:He.
    + rewrite (loadAll_hit _ _ _ _ Hkey He). by destruct e.
    + by rewrite (loadAll_miss _ _ _ Hkey He).
  - intros He. by apply loadAll_miss.
Qed.

Lemma loadAll_blank_language_is_fetched_witness :
  "   " <> "" /\ blank "   " = true /\ cache initial !! "" = None /\
  loadAll (Str "   ") initial
  = ({| cache := <["" := Promise 0]> ∅;
        promises := [{| safeLanguage := ""; settled := Pending AwaitFetch |}];
        fetched := ["https://cdn.jsdelivr.net/npm/@mdkva/surahkit/data/.json"] |},
     Awaiting 0 inr).
Proof.
  split; [discriminate |]. split; [reflexivity |]. split; [reflexivity |].
  exact (proj2 (proj2 (loadAll_blank_language_is_fetched "   " initial
                         ltac:(discriminate) eq_refl)) eq_refl).
Defined.


(** The three ways to fail, and the retry after each. *)
Example retry_after_failure :
  let st := (loadAll (Str "english") initial).1 in
  let retried ev := (run [ev; CallLoadAll (Str "english")] st).1 in
  List.map (fun ev => (cache (step ev st).1 !! "english",
                       outcome (step ev st).1 (Awaiting 0 (@inr exn _)),
                       fetches "english" (retried ev),
                       cache (retried ev) !! "english"))
    [FetchSettles 0 (inl (Rejection "Failed to fetch"));
     FetchSettles 0 (inr {| ok := false; status := 404 |})]
  = [(None, Some (inl (Rejection "Failed to fetch")), 2, Some (Promise 1));
     (None, Some (inl (Error "Language file 'english.json' not found (Status: 404).")), 2,
      Some (Promise 1))]
  /\ cache (step (JsonSettles 0 (inl (Rejection "Unexpected token"))) inFlight).1 !! "english"
     = None.
Proof. split; reflexivity. Qed.

(** C3, as the specification states it, fails: the retrieval that was
    under way when [clearCache()] ran stores its array all the same. *)
Lemma clearCache_race_counterexample :
  promises inFlight !! 0 = Some {| safeLanguage := "english"; settled := Pending AwaitJson |}
  /\ cache (clearCache inFlight) = ∅
  /\ cache (resumeJson 0 (inr [opener; yasin]) (clearCache inFlight)) !! "english"
     = Some (Data [opener; yasin]).
Proof. repeat split; reflexivity. Qed.

(** C3, amended. [clearCache()] empties the cache whatever its entries
    are and touches nothing else; a retrieval that was under way goes
    on, and when it succeeds it stores its array under its key. *)
Theorem clearCache_empties_and_retrieval_repopulates
    (st : state) (p : nat) (key : string) (a : suspension) (res : Response)
    (data : list SurahItem) :
  cache (clearCache st) = ∅ /\
  promises (clearCache st) = promises st /\
  fetched (clearCache st) = fetched st /\
  (promises st !! p = Some {| safeLanguage := key; settled := Pending a |} ->
   ok res = true ->
   cache (run (completion p a res data) (clearCache st)).1 !! key = Some (Data data) /\
   promises (run (completion p a res data) (clearCache st)).1 !! p
   = Some {| safeLanguage := key; settled := Fulfilled data |}).
Proof.
  split; [done |]. split; [done |]. split; [done |].
  intros Hp Hok. pose proof (lookup_lt_Some _ _ _ Hp) as Hlt.
  assert (Hjson : forall st', promises st' !! p
                              = Some {| safeLanguage := key; settled := Pending AwaitJson |} ->
            cache (resumeJson p (inr data) st') !! key = Some (Data data) /\
            promises (resumeJson p (inr data) st') !! p
            = Some {| safeLanguage := key; settled := Fulfilled data |}).
  { intros st' Hp'. pose proof (lookup_lt_Some _ _ _ Hp') as Hlt'.
    unfold resumeJson. rewrite Hp'. simpl.
    by rewrite lookup_insert_eq, list_lookup_insert_eq. }
  destruct a; simpl.
  - apply Hjson. unfold resumeFetch. simpl. rewrite Hp, Hok. simpl.
    by rewrite list_lookup_insert_eq.
  - by apply Hjson.
Qed.

Lemma clearCache_empties_and_retrieval_repopulates_witness :
  promises inFlight !! 0 = Some {| safeLanguage := "english"; settled := Pending AwaitJson |}
  /\ cache (run (completion 0 AwaitJson {| ok := true; status := 200 |} [opener; yasin])
              (clearCache inFlight)).1 !! "english" = Some (Data [opener; yasin]).
Proof.
  split; [reflexivity |].
  exact (proj1 (proj2 (proj2 (proj2
           (clearCache_empties_and_retrieval_repopulates inFlight 0 "english" AwaitJson
              {| ok := true; status := 200 |} [opener; yasin]))) eq_refl eq_refl)).
Defined.

(** Every step is one of the changes, and the event tells which. *)
Lemma step_changes (ev : event) (st : state) :
  exists c,
    changes st c (step ev st).1 /\
    (forall p key error, c = Failed p key error -> fails key ev st = true) /\
    (c = Cleared -> ev = CallClearCache) /\
    (forall key, c = Registered key ->
                 exists language, ev = CallLoadAll language /\ keyOf language = Some key).
Proof.
  destruct ev as [language| |p res|p res]; simpl.
  - destruct (keyOf language) as [key|] eqn:Hkey.
    + destruct (cache st !! key) as [e|] eqn:He.
      * rewrite (loadAll_hit _ _ _ _ Hkey He). exists Unchanged.
        split; [constructor |]. by repeat split.
      * rewrite (loadAll_miss _ _ _ Hkey He). exists (Registered key).
        split; [by constructor |]. repeat split; try done.
        intros k [= <-]. by exists language.
    + pose proof (loadAll_no_key _ st Hkey) as Hst.
      destruct (loadAll language st) as [st1 m]. simpl in Hst |- *. subst st1.
      exists Unchanged. split; [constructor |]. by repeat split.
  - exists Cleared. split; [constructor |]. by repeat split.
  - unfold resumeFetch.
    destruct (promises st !! p) as [[k [[|]|data|e]]|] eqn:Hp;
      try (exists Unchanged; split; [constructor |]; by repeat split).
    destruct res as [error|res]; [| destruct (ok res) eqn:Hok]; simpl.
    + exists (Failed p k error). split; [by econstructor |]. repeat split; try done.
      intros ? key ? [= _ <- _]. by rewrite bool_decide_eq_true_2.
    + exists (Advanced p k). split; [by constructor |]. by repeat split.
    + exists (Failed p k (notFound k res)). split; [by econstructor |].
      repeat split; try done.
      intros ? key ? [= _ <- _]. by rewrite bool_decide_eq_true_2.
  - unfold resumeJson.
    destruct (promises st !! p) as [[k [[|]|data|e]]|] eqn:Hp;
      try (exists Unchanged; split; [constructor |]; by repeat split).
    destruct res as [error|data]; simpl.
    + exists (Failed p k error). split; [by econstructor |]. repeat split; try done.
      intros ? key ? [= _ <- _]. by rewrite bool_decide_eq_true_2.
    + exists (Stored p k data). split; [by constructor |]. by repeat split.
Qed.

Lemma fetches_app (key : string) (st : state) (urls : list string) :
  length (List.filter (fun u => String.eqb u (url key)) (fetched st ++ urls))
  = fetches key st + length (List.filter (fun u => String.eqb u (url key)) urls).
Proof. unfold fetches. by rewrite List.filter_app, length_app. Qed.

(** Only registering [key] counts as a fetch for [key]. *)
Lemma fetches_changes (key : string) (c : change) (st st' : state) :
  changes st c st' ->
  fetches key st' = fetches key st + (if registers key c then 1 else 0).
Proof.
  destruct 1 as [|k Hk|p k Hp|p k data Hp|p k a error Hp|];
    try (unfold fetches; simpl; lia).
  unfold fetches at 1. cbn [fetched]. rewrite fetches_app. f_equal.
  cbn [List.filter registers].
  destruct (String.eqb_spec (url k) (url key)) as [Heq|Hne].
  - apply url_inj in Heq as ->. by rewrite bool_decide_eq_true_2.
  - rewrite bool_decide_eq_false_2; [done |]. by intros ->.
Qed.

(** A settled promise stays as it is: what a caller has received is
    not taken back. *)
Lemma outcome_stable {A} (c : change) (st st' : state) (m : async A) (r : exn + A) :
  changes st c st' -> outcome st m = Some r -> outcome st' m = Some r.
Proof.
  intros Hc. destruct m as [r0|p rest]; simpl; [done |].
  destruct (promises st !! p) as [[k0 s0]|] eqn:Hp0; [| done].
  assert (Hkeep : forall q k a v,
            promises st !! q = Some {| safeLanguage := k; settled := Pending a |} ->
            s0 <> Pending a -> <[q := v]> (promises st) !! p = Some {| safeLanguage := k0; settled := s0 |}).
  { intros q k a v Hq Hs0. rewrite list_lookup_insert_ne; [done |].
    intros ->. rewrite Hq in Hp0. by injection Hp0 as _ <-. }
  destruct Hc as [|k Hk|q k Hq|q k data Hq|q k a error Hq|]; simpl; try by rewrite Hp0.
  - by rewrite (lookup_app_l_Some _ _ _ _ Hp0).
  - destruct s0 as [a0|d0|e0]; try done; intros Hr;
      by erewrite Hkeep.
  - destruct s0 as [a0|d0|e0]; try done; intros Hr;
      by erewrite Hkeep.
  - destruct s0 as [a0|d0|e0]; try done; intros Hr;
      by erewrite Hkeep.
Qed.

(** No change but clearing breaks the tie between the entry of [key]
    and the retrieval of [key] under way. *)
Lemma coherent_changes (key : string) (c : change) (st st' : state) :
  changes st c st' -> c <> Cleared -> coherent key st -> coherent key st'.
Proof.
  intros Hc Hclear Hcoh.
  destruct Hc as [|k Hk|q k Hq|q k data Hq|q k a error Hq|]; try done; intros p; simpl.
  - (* registered *)
    destruct (decide (k = key)) as [->|Hne].
    + rewrite lookup_insert_eq. split.
      * intros [= <-]. exists AwaitFetch. by rewrite list_lookup_middle.
      * intros [a Hp]. apply lookup_snoc_Some in Hp as [[Hlt Hp] | [-> _]]; [| done].
        assert (cache st !! key = Some (Promise p)) as Hc by (apply Hcoh; eauto).
        congruence.
    + rewrite lookup_insert_ne by done. rewrite (Hcoh p). split.
      * intros [a Hp]. exists a. by apply lookup_app_l_Some.
      * intros [a Hp]. apply lookup_snoc_Some in Hp as [[Hlt Hp] | [-> Hp]]; [eauto |].
        by injection Hp as ->.
  - (* advanced *)
    pose proof (lookup_lt_Some _ _ _ Hq) as Hlt. rewrite (Hcoh p).
    destruct (decide (p = q)) as [->|Hne].
    + rewrite list_lookup_insert_eq by done. rewrite Hq. split.
      * intros [a [= <- _]]. by exists AwaitJson.
      * intros [a [= -> _]]. by exists AwaitFetch.
    + by rewrite list_lookup_insert_ne.
  - (* stored *)
    pose proof (lookup_lt_Some _ _ _ Hq) as Hlt.
    destruct (decide (p = q)) as [->|Hne].
    + rewrite list_lookup_insert_eq by done. split; [| by intros [a [= _ ?]]].
      destruct (decide (k = key)) as [->|Hk].
      * by rewrite lookup_insert_eq.
      * rewrite lookup_insert_ne by done. rewrite (Hcoh q), Hq. by intros [a [= ? _]].
    + rewrite list_lookup_insert_ne by done. rewrite <- (Hcoh p).
      destruct (decide (k = key)) as [->|Hk]; [| by rewrite lookup_insert_ne].
      rewrite lookup_insert_eq. split; [done |]. intros Hp.
      assert (cache st !! key = Some (Promise q)) as Hc by (apply Hcoh; eauto).
      congruence.
  - (* failed *)
    pose proof (lookup_lt_Some _ _ _ Hq) as Hlt.
    destruct (decide (p = q)) as [->|Hne].
    + rewrite list_lookup_insert_eq by done. split; [| by intros [a' [= _ ?]]].
      destruct (decide (k = key)) as [->|Hk].
      * by rewrite lookup_delete_eq.
      * rewrite lookup_delete_ne by done. rewrite (Hcoh q), Hq. by intros [a' [= ? _]].
    + rewrite list_lookup_insert_ne by done. rewrite <- (Hcoh p).
      destruct (decide (k = key)) as [->|Hk]; [| by rewrite lookup_delete_ne].
      rewrite lookup_delete_eq. split; [done |]. intros Hp.
      assert (cache st !! key = Some (Promise q)) as Hc by (apply Hcoh; eauto).
      congruence.
Qed.

(** Inside a window an entry of [key] stays, and while it is there no
    fetch for [key] is issued. *)
Lemma entry_kept (key : string) (c : change) (st st' : state) :
  changes st c st' -> ~ disturbs key c -> is_Some (cache st !! key) ->
  is_Some (cache st' !! key) /\ registers key c = false.
Proof.
  intros Hc Hcalm Hsome.
  destruct Hc as [|k Hk|q k Hq|q k data Hq|q k a error Hq|]; simpl in *; try done.
  - assert (k <> key) as Hne by (intros ->; rewrite Hk in Hsome; by destruct Hsome).
    rewrite lookup_insert_ne by done. by rewrite bool_decide_eq_false_2.
  - split; [| done]. destruct (decide (k = key)) as [->|Hne].
    + by rewrite lookup_insert_eq.
    + by rewrite lookup_insert_ne.
  - by rewrite lookup_delete_ne.
Qed.

(** Inside a window a call that shares the entry of [key] goes on
    sharing it: when the promise it holds is fulfilled, the array it
    receives is the one stored in the cache. *)
Lemma joined_changes (key : string) (c : change) (st st' : state) (cl : call) :
  changes st c st' -> ~ disturbs key c -> coherent key st ->
  joined key st cl -> joined key st' cl.
Proof.
  intros Hc Hcalm Hcoh. unfold joined.
  destruct (cache st !! key) as [[p|data]|] eqn:Hentry; [| | done].
  - (* the call holds the promise in the cache *)
    intros Hcl.
    destruct Hc as [|k Hk|q k Hq|q k d Hq|q k a error Hq|]; simpl in *; try done;
      try by rewrite Hentry.
    + assert (k <> key) as Hne by congruence.
      by rewrite lookup_insert_ne, Hentry.
    + destruct (decide (k = key)) as [->|Hne].
      * assert (cache st !! key = Some (Promise q)) as Hc by (apply Hcoh; eauto).
        assert (q = p) as -> by congruence.
        pose proof (lookup_lt_Some _ _ _ Hq) as Hlt.
        rewrite lookup_insert_eq, Hcl. simpl. by rewrite list_lookup_insert_eq.
      * by rewrite lookup_insert_ne, Hentry.
    + by rewrite lookup_delete_ne, Hentry.
  - (* the call has received the array in the cache *)
    intros Hcl. pose proof (outcome_stable _ _ _ _ _ Hc Hcl) as Hcl'.
    destruct Hc as [|k Hk|q k Hq|q k d Hq|q k a error Hq|]; simpl in *; try done;
      try by rewrite Hentry.
    + assert (k <> key) as Hne by congruence.
      by rewrite lookup_insert_ne, Hentry.
    + destruct (decide (k = key)) as [->|Hne].
      * assert (cache st !! key = Some (Promise q)) as Hc by (apply Hcoh; eauto).
        congruence.
      * by rewrite lookup_insert_ne, Hentry.
    + by rewrite lookup_delete_ne, Hentry.
Qed.

(** A call of [loadAll] for [key] shares the entry of [key] from the
    moment it returns. *)
Lemma loadAll_joined (language : value) (key : string) (st : state) :
  keyOf language = Some key ->
  joined key (loadAll language st).1
    {| argument := language; returned := (loadAll language st).2 |}.
Proof.
  intros Hkey. unfold joined.
  destruct (cache st !! key) as [e|] eqn:He.
  - rewrite (loadAll_hit _ _ _ _ Hkey He). simpl. rewrite He. by destruct e.
  - rewrite (loadAll_miss _ _ _ Hkey He). simpl. by rewrite lookup_insert_eq.
Qed.

Lemma run_cons (ev : event) (evs : list event) (st : state) :
  run (ev :: evs) st
  = ((run evs (step ev st).1).1, (step ev st).2 ++ (run evs (step ev st).1).2).
Proof.
  simpl. destruct (step ev st) as [st1 calls1]. simpl.
  by destruct (run evs st1).
Qed.

Lemma window_cons (key : string) (ev : event) (evs : list event) (st : state) :
  window key (ev :: evs) st = true ->
  fails key ev st = false /\ ev <> CallClearCache /\ window key evs (step ev st).1 = true.
Proof.
  simpl. intros [[Hfails Hclear]%andb_true_iff Hrest]%andb_true_iff.
  split; [by apply negb_true_iff |]. split; [| done]. by intros ->.
Qed.

(** A step of a window, as a change. *)
Lemma window_step (key : string) (ev : event) (st : state) :
  fails key ev st = false -> ev <> CallClearCache ->
  exists c, changes st c (step ev st).1 /\ ~ disturbs key c /\ c <> Cleared.
Proof.
  intros Hfails Hclear.
  destruct (step_changes ev st) as (c & Hc & Hfailed & Hcleared & _).
  exists c. split; [done |]. split; [| by intros ?%Hcleared].
  intros Hd. destruct c as [|k|p k|p k data|p k error|]; simpl in Hd; try done.
  - subst k. rewrite (Hfailed _ _ _ eq_refl) in Hfails. done.
  - by apply Hclear, Hcleared.
Qed.

Lemma registers_entry (key : string) (c : change) (st st' : state) :
  changes st c st' -> registers key c = true -> is_Some (cache st' !! key).
Proof.
  destruct 1; simpl; try done. intros ->%bool_decide_eq_true.
  by rewrite lookup_insert_eq.
Qed.

(** A window for [key] holds at most one fetch for [key], and none when
    it starts with an entry for [key]. No assumption on the state it
    starts in. *)
Lemma window_fetches (key : string) (evs : list event) (st : state) :
  window key evs st = true ->
  fetches key (run evs st).1 <= fetches key st + 1 /\
  (is_Some (cache st !! key) ->
   is_Some (cache (run evs st).1 !! key) /\ fetches key (run evs st).1 = fetches key st).
Proof.
  revert st. induction evs as [|ev evs IH]; intros st Hwin.
  - simpl. split; [lia | by intros].
  - apply window_cons in Hwin as (Hfails & Hclear & Hwin).
    destruct (window_step _ _ _ Hfails Hclear) as (c & Hc & Hcalm & Hnc).
    destruct (IH _ Hwin) as (IHle & IHsome).
    pose proof (fetches_changes key _ _ _ Hc) as Hfetch.
    rewrite run_cons. cbn [fst]. split.
    + destruct (registers key c) eqn:Hreg; [| lia].
      destruct (IHsome (registers_entry _ _ _ _ Hc Hreg)) as [_ Heq]. lia.
    + intros Hsome. destruct (entry_kept _ _ _ _ Hc Hcalm Hsome) as [Hsome1 Hreg].
      destruct (IHsome Hsome1) as [Hsome2 Heq]. rewrite Hreg in Hfetch.
      split; [done | lia].
Qed.

(** A window for [key] that starts coherent ends coherent, and a call
    that shares the entry of [key] shares it to the end. *)
Lemma window_run (key : string) (evs : list event) (st : state) :
  coherent key st -> window key evs st = true ->
  coherent key (run evs st).1 /\
  (forall cl, joined key st cl -> joined key (run evs st).1 cl).
Proof.
  revert st. induction evs as [|ev evs IH]; intros st Hcoh Hwin.
  - simpl. split; [done | by intros].
  - apply window_cons in Hwin as (Hfails & Hclear & Hwin).
    destruct (window_step _ _ _ Hfails Hclear) as (c & Hc & Hcalm & Hnc).
    pose proof (coherent_changes _ _ _ _ Hc Hnc Hcoh) as Hcoh1.
    destruct (IH _ Hcoh1 Hwin) as (IHcoh & IHjoined).
    rewrite run_cons. cbn [fst]. split; [done |].
    intros cl Hcl. apply IHjoined. by eapply joined_changes.
Qed.

(** Every call for [key] made inside a window shares the entry of [key]
    at the end of the window. *)
Lemma window_calls_joined (key : string) (evs : list event) (st : state) (cl : call) :
  coherent key st -> window key evs st = true ->
  cl ∈ (run evs st).2 -> keyOf (argument cl) = Some key ->
  joined key (run evs st).1 cl.
Proof.
  revert st. induction evs as [|ev evs IH]; intros st Hcoh Hwin Hin Hkey.
  - by apply elem_of_nil in Hin.
  - apply window_cons in Hwin as (Hfails & Hclear & Hwin).
    destruct (window_step _ _ _ Hfails Hclear) as (c & Hc & Hcalm & Hnc).
    pose proof (coherent_changes _ _ _ _ Hc Hnc Hcoh) as Hcoh1.
    rewrite run_cons in Hin |- *. cbn [fst snd] in Hin |- *.
    apply elem_of_app in Hin as [Hin|Hin]; [| by apply IH].
    apply (window_run key evs _ Hcoh1 Hwin).
    destruct ev as [language| |p res|p res]; simpl in Hin;
      try by apply elem_of_nil in Hin.
    simpl. destruct (loadAll language st) as [st1 m] eqn:Hload. simpl in Hin |- *.
    apply list_elem_of_singleton in Hin as ->. simpl in Hkey.
    pose proof (loadAll_joined language key st Hkey) as Hj. by rewrite Hload in Hj.
Qed.

Lemma coherent_initial (key : string) : coherent key initial.
Proof.
  intros p. simpl. rewrite lookup_empty. split; [done |].
  intros [a Hp]. by rewrite lookup_nil in Hp.
Qed.

(** As long as the cache is not cleared, every state is coherent for
    every key, failures included. *)
Lemma coherent_run (key : string) (evs : list event) (st : state) :
  CallClearCache ∉ evs -> coherent key st -> coherent key (run evs st).1.
Proof.
  revert st. induction evs as [|ev evs IH]; intros st Hclear Hcoh; [done |].
  apply not_elem_of_cons in Hclear as [Hev Hclear].
  rewrite run_cons. cbn [fst]. apply IH; [done |].
  destruct (step_changes ev st) as (c & Hc & _ & Hcleared & _).
  eapply coherent_changes; [exact Hc | | done].
  by intros ->%Hcleared.
Qed.

(** The session runs one fetch, and its three calls have received the
    same array. *)
Example session_single_flight :
  fetched (run session initial).1
  = ["https://cdn.jsdelivr.net/npm/@mdkva/surahkit/data/english.json"]
  /\ List.map (fun c => outcome (run session initial).1 (returned c)) (run session initial).2
     = [Some (inr [opener; yasin]); Some (inr [opener; yasin]); Some (inr [opener; yasin])]
  /\ List.map (fun c => outcome (run (take 2 session) initial).1 (returned c))
       (run (take 2 session) initial).2
     = [None; None].
Proof. repeat split; reflexivity. Qed.

End PartitionCache.

(** ** Invariants of every run *)
Section Invariants.

Lemma sound_initial : sound initial.
Proof.
  split; simpl.
  - intros key p H. by rewrite lookup_empty in H.
  - intros key data H. by rewrite lookup_empty in H.
  - done.
  - intros p r H. by rewrite lookup_nil in H.
Qed.

(** Overwriting a promise by one of the same language changes no URL. *)
Lemma urls_insert (p : nat) (key : string) (s0 s1 : settlement) (l : list fetchAndCachePromise) :
  l !! p = Some {| safeLanguage := key; settled := s0 |} ->
  (fun r => url (safeLanguage r)) <$> <[p := {| safeLanguage := key; settled := s1 |}]> l
  = (fun r => url (safeLanguage r)) <$> l.
Proof.
  intros Hp. rewrite list_fmap_insert. simpl. apply list_insert_id.
  by rewrite list_lookup_fmap, Hp.
Qed.

Lemma keys_insert (q : nat) (key : string) (s0 s1 : settlement) (l : list fetchAndCachePromise) :
  l !! q = Some {| safeLanguage := key; settled := s0 |} ->
  (forall p r, l !! p = Some r -> exists s, s <> "" /\ safeLanguage r = toLowerCase (trim s)) ->
  forall p r, <[q := {| safeLanguage := key; settled := s1 |}]> l !! p = Some r ->
              exists s, s <> "" /\ safeLanguage r = toLowerCase (trim s).
Proof.
  intros Hq Hl p r Hp. destruct (decide (p = q)) as [->|Hne].
  - rewrite list_lookup_insert_eq in Hp by (by eapply lookup_lt_Some).
    injection Hp as <-. by apply (Hl _ _ Hq).
  - rewrite list_lookup_insert_ne in Hp by done. by eapply Hl.
Qed.

(** An entry that is a promise, after a settled promise was overwritten
    elsewhere. *)
Lemma pending_insert_ne (q p : nat) (k key : string) (a0 a : suspension)
    (v : fetchAndCachePromise) (l : list fetchAndCachePromise) :
  l !! q = Some {| safeLanguage := k; settled := Pending a0 |} ->
  l !! p = Some {| safeLanguage := key; settled := Pending a |} ->
  k <> key ->
  <[q := v]> l !! p = Some {| safeLanguage := key; settled := Pending a |}.
Proof.
  intros Hq Hp Hne. rewrite list_lookup_insert_ne; [done |].
  intros ->. rewrite Hq in Hp. by injection Hp.
Qed.

Lemma fulfilled_insert_ne (q p : nat) (k key : string) (a0 : suspension)
    (data : list SurahItem) (v : fetchAndCachePromise) (l : list fetchAndCachePromise) :
  l !! q = Some {| safeLanguage := k; settled := Pending a0 |} ->
  l !! p = Some {| safeLanguage := key; settled := Fulfilled data |} ->
  <[q := v]> l !! p = Some {| safeLanguage := key; settled := Fulfilled data |}.
Proof.
  intros Hq Hp. rewrite list_lookup_insert_ne; [done |].
  intros ->. rewrite Hq in Hp. by injection Hp.
Qed.

(** Every step keeps a sound state sound, clearing included. *)
Lemma sound_step (ev : event) (st : state) : sound st -> sound (step ev st).1.
Proof.
  intros [Hpromise Hdata Hfetched Hkeys].
  destruct (step_changes ev st) as (c & Hc & _ & _ & Hreg).
  destruct Hc as [|k Hk|q k Hq|q k d Hq|q k a error Hq|]; [done | | | | |].
  - (* registered *)
    destruct (Hreg k eq_refl) as (language & _ & Hkey).
    apply keyOf_Some in Hkey as (s & _ & Hs & Hk').
    split; simpl.
    + intros key p. destruct (decide (k = key)) as [->|Hne].
      * rewrite lookup_insert_eq. intros [= <-]. exists AwaitFetch.
        by rewrite list_lookup_middle.
      * rewrite lookup_insert_ne by done. intros [a Hp]%Hpromise.
        exists a. by apply lookup_app_l_Some.
    + intros key data. destruct (decide (k = key)) as [->|Hne].
      * by rewrite lookup_insert_eq.
      * rewrite lookup_insert_ne by done. intros [p Hp]%Hdata.
        exists p. by apply lookup_app_l_Some.
    + by rewrite fmap_app, Hfetched.
    + intros p r [[_ Hp] | [_ <-]]%lookup_snoc_Some; [by eapply Hkeys |].
      by exists s.
  - (* advanced *)
    pose proof (lookup_lt_Some _ _ _ Hq) as Hlt.
    split; simpl.
    + intros key p [a Hp]%Hpromise. destruct (decide (p = q)) as [->|Hne].
      * rewrite Hq in Hp. injection Hp as -> _. exists AwaitJson.
        by rewrite list_lookup_insert_eq.
      * exists a. by rewrite list_lookup_insert_ne.
    + intros key data [p Hp]%Hdata. exists p. by eapply fulfilled_insert_ne.
    + by rewrite (urls_insert _ _ _ _ _ Hq).
    + by eapply keys_insert.
  - (* stored *)
    pose proof (lookup_lt_Some _ _ _ Hq) as Hlt.
    split; simpl.
    + intros key p. destruct (decide (k = key)) as [->|Hne].
      * by rewrite lookup_insert_eq.
      * rewrite lookup_insert_ne by done. intros [a Hp]%Hpromise.
        exists a. by eapply pending_insert_ne.
    + intros key data. destruct (decide (k = key)) as [->|Hne].
      * rewrite lookup_insert_eq. intros [= <-]. exists q.
        by rewrite list_lookup_insert_eq.
      * rewrite lookup_insert_ne by done. intros [p Hp]%Hdata.
        exists p. by eapply fulfilled_insert_ne.
    + by rewrite (urls_insert _ _ _ _ _ Hq).
    + by eapply keys_insert.
  - (* failed *)
    pose proof (lookup_lt_Some _ _ _ Hq) as Hlt.
    split; simpl.
    + intros key p. destruct (decide (k = key)) as [->|Hne].
      * by rewrite lookup_delete_eq.
      * rewrite lookup_delete_ne by done. intros [a' Hp]%Hpromise.
        exists a'. by eapply pending_insert_ne.
    + intros key data. destruct (decide (k = key)) as [->|Hne].
      * by rewrite lookup_delete_eq.
      * rewrite lookup_delete_ne by done. intros [p Hp]%Hdata.
        exists p. by eapply fulfilled_insert_ne.
    + by rewrite (urls_insert _ _ _ _ _ Hq).
    + by eapply keys_insert.
  - (* cleared *)
    split; simpl; [| | done | done].
    + intros key p H. by rewrite lookup_empty in H.
    + intros key data H. by rewrite lookup_empty in H.
Qed.

Lemma sound_run (evs : list event) (st : state) : sound st -> sound (run evs st).1.
Proof.
  revert st. induction evs as [|ev evs IH]; intros st Hst; [done |].
  rewrite run_cons. cbn [fst]. by apply IH, sound_step.
Qed.

(** X2. Provenance of cached data. In every state of a run from the
    empty cache, an array found in the cache under [key] is the array a
    retrieval of [key] was fulfilled with, and [key] is the trimmed,
    lower-cased form of a language that was not empty. *)
Theorem cached_data_was_retrieved (evs : list event) (key : string) (data : list SurahItem) :
  cache (run evs initial).1 !! key = Some (Data data) ->
  (exists p, promises (run evs initial).1 !! p
             = Some {| safeLanguage := key; settled := Fulfilled data |}) /\
  (exists s, s <> "" /\ key = toLowerCase (trim s)).
Proof.
  intros Hentry. pose proof (sound_run evs initial sound_initial) as Hsound.
  destruct (sound_data _ Hsound _ _ Hentry) as [p Hp].
  split; [by exists p |]. by apply (sound_keys _ Hsound _ _ Hp).
Qed.

Lemma cached_data_was_retrieved_witness :
  cache (run eventful initial).1 !! "english" = Some (Data [opener]) /\
  (exists p, promises (run eventful initial).1 !! p
             = Some {| safeLanguage := "english"; settled := Fulfilled [opener] |}).
Proof.
  split; [reflexivity |].
  exact (proj1 (cached_data_was_retrieved eventful "english" [opener] eq_refl)).
Defined.

Lemma fetches_count (key : string) (l : list fetchAndCachePromise) :
  length (List.filter (fun u => String.eqb u (url key)) ((fun r => url (safeLanguage r)) <$> l))
  = length (filter (fun r => safeLanguage r = key) l).
Proof.
  induction l as [|r l IH]; [done |].
  rewrite fmap_cons, filter_cons. cbn [List.filter].
  destruct (String.eqb_spec (url (safeLanguage r)) (url key)) as [Heq|Hne].
  - apply url_inj in Heq. rewrite decide_True by done. simpl. by rewrite IH.
  - rewrite decide_False; [done |]. intros Heq. by rewrite Heq in Hne.
Qed.

(** X3. One fetch per retrieval. In every state of a run from the empty
    cache, the URLs [fetch] was called with are, in order, the URLs of
    the promises created; so the fetches for [key] are as many as the
    retrievals of [key], and every URL fetched is that of a trimmed,
    lower-cased language that was not empty. *)
Theorem fetches_match_promises (evs : list event) (key u : string) :
  fetched (run evs initial).1
  = (fun r => url (safeLanguage r)) <$> promises (run evs initial).1 /\
  fetches key (run evs initial).1
  = length (filter (fun r => safeLanguage r = key) (promises (run evs initial).1)) /\
  (u ∈ fetched (run evs initial).1 -> exists s, s <> "" /\ u = url (toLowerCase (trim s))).
Proof.
  pose proof (sound_run evs initial sound_initial) as Hsound.
  pose proof (sound_fetched _ Hsound) as Hfetched.
  split; [done |]. split.
  - unfold fetches. rewrite Hfetched. apply fetches_count.
  - rewrite Hfetched. intros (r & -> & Hr)%list_elem_of_fmap.
    apply list_elem_of_lookup in Hr as [p Hp].
    destruct (sound_keys _ Hsound _ _ Hp) as (s & Hs & ->). by exists s.
Qed.

Lemma fetches_match_promises_witness :
  "https://cdn.jsdelivr.net/npm/@mdkva/surahkit/data/english.json"
    ∈ fetched (run eventful initial).1 /\
  fetches "english" (run eventful initial).1 = 3 /\
  exists s, s <> "" /\
    "https://cdn.jsdelivr.net/npm/@mdkva/surahkit/data/english.json"
    = url (toLowerCase (trim s)).
Proof.
  assert (Hin : "https://cdn.jsdelivr.net/npm/@mdkva/surahkit/data/english.json"
                ∈ fetched (run eventful initial).1) by apply list_elem_of_here.
  split; [exact Hin |]. split; [reflexivity |].
  exact (proj2 (proj2 (fetches_match_promises eventful "english"
           "https://cdn.jsdelivr.net/npm/@mdkva/surahkit/data/english.json")) Hin).
Defined.

(** X4. What a caller has received is final. Once the promise a call
    returned is settled, nothing that happens later changes what it was
    settled with: no other retrieval, no failure, no [clearCache()]. *)
Theorem received_result_is_final {A} (evs : list event) (st : state) (m : async A) (r : exn + A) :
  outcome st m = Some r -> outcome (run evs st).1 m = Some r.
Proof.
  revert st. induction evs as [|ev evs IH]; intros st Hr; [done |].
  rewrite run_cons. cbn [fst]. apply IH.
  destruct (step_changes ev st) as (c & Hc & _). by eapply outcome_stable.
Qed.

Lemma received_result_is_final_witness :
  outcome loaded (Awaiting 0 (@inr exn _)) = Some (inr [opener; yasin]) /\
  outcome (run [CallClearCache; CallLoadAll (Str "english");
                FetchSettles 1 (inl (Rejection "Failed to fetch"))] loaded).1
    (Awaiting 0 (@inr exn _)) = Some (inr [opener; yasin]).
Proof.
  split; [reflexivity |].
  exact (received_result_is_final
           [CallClearCache; CallLoadAll (Str "english");
            FetchSettles 1 (inl (Rejection "Failed to fetch"))]
           loaded (Awaiting 0 inr) (inr [opener; yasin]) eq_refl).
Defined.

(** X5. Languages do not interfere. An event about another key (a call
    of [loadAll] that looks up another key or none, the success or the
    failure of a retrieval of another key) leaves the entry of [key] and
    the number of fetches for [key] as they are. *)
Theorem other_keys_are_untouched (key : string) (ev : event) (st : state) :
  ev <> CallClearCache -> subject ev st <> Some key ->
  cache (step ev st).1 !! key = cache st !! key /\
  fetches key (step ev st).1 = fetches key st.
Proof.
  intros Hclear Hsubject.
  destruct ev as [language| |p res|p res]; simpl in Hsubject |- *; [| done | |].
  - destruct (keyOf language) as [k|] eqn:Hkey.
    + assert (k <> key) as Hne by congruence.
      destruct (cache st !! k) as [e|] eqn:He.
      * by rewrite (loadAll_hit _ _ _ _ Hkey He).
      * rewrite (loadAll_miss _ _ _ Hkey He). simpl.
        split; [by rewrite lookup_insert_ne |].
        rewrite (fetches_changes key _ _ _ (changes_registered st k He)). simpl.
        rewrite bool_decide_eq_false_2 by done. lia.
    + pose proof (loadAll_no_key _ st Hkey) as Hst.
      destruct (loadAll language st) as [st1 m]. simpl in Hst |- *. by subst st1.
  - unfold resumeFetch.
    destruct (promises st !! p) as [[k [[|]|data|e]]|] eqn:Hp; try done.
    assert (k <> key) as Hne by (simpl in Hsubject; congruence).
    destruct res as [error|res]; [| destruct (ok res)]; simpl;
      try (split; [by rewrite lookup_delete_ne | done]).
    done.
  - unfold resumeJson.
    destruct (promises st !! p) as [[k [[|]|data|e]]|] eqn:Hp; try done.
    assert (k <> key) as Hne by (simpl in Hsubject; congruence).
    destruct res as [error|data]; simpl.
    + split; [by rewrite lookup_delete_ne | done].
    + split; [by rewrite lookup_insert_ne | done].
Qed.

Lemma other_keys_are_untouched_witness :
  cache (step (FetchSettles 1 (inr {| ok := false; status := 404 |}))
           (loadAll (Str "arabic") loaded).1).1 !! "english"
  = cache (loadAll (Str "arabic") loaded).1 !! "english" /\
  fetches "english" (step (FetchSettles 1 (inr {| ok := false; status := 404 |}))
                       (loadAll (Str "arabic") loaded).1).1
  = fetches "english" (loadAll (Str "arabic") loaded).1.
Proof.
  apply (other_keys_are_untouched "english"
           (FetchSettles 1 (inr {| ok := false; status := 404 |}))
           (loadAll (Str "arabic") loaded).1); discriminate.
Defined.

(** An array in the cache stays where it is as long as the state is
    coherent and the cache is not cleared. *)
Lemma data_kept (key : string) (data : list SurahItem) (c : change) (st st' : state) :
  changes st c st' -> c <> Cleared -> coherent key st ->
  cache st !! key = Some (Data data) ->
  cache st' !! key = Some (Data data) /\ registers key c = false.
Proof.
  intros Hc Hclear Hcoh Hentry.
  assert (Hpending : forall q a,
            promises st !! q = Some {| safeLanguage := key; settled := Pending a |} -> False).
  { intros q a Hq. assert (cache st !! key = Some (Promise q)) by (apply Hcoh; eauto).
    congruence. }
  destruct Hc as [|k Hk|q k Hq|q k d Hq|q k a error Hq|]; simpl; try done.
  - assert (k <> key) as Hne by congruence.
    by rewrite lookup_insert_ne, bool_decide_eq_false_2.
  - split; [| done]. destruct (decide (k = key)) as [->|Hne]; [by destruct (Hpending _ _ Hq) |].
    by rewrite lookup_insert_ne.
  - split; [| done]. destruct (decide (k = key)) as [->|Hne]; [by destruct (Hpending _ _ Hq) |].
    by rewrite lookup_delete_ne.
Qed.

(** X6. Memoized until cleared. From a coherent state in which the cache
    holds an array for [key], any run that does not clear the cache,
    whatever fails in it, keeps that array: no fetch for [key] is issued
    and every call of [loadAll] for [key] returns that array at once. *)
Theorem resolved_partition_is_kept
    (key : string) (data : list SurahItem) (evs : list event) (st : state) :
  coherent key st -> cache st !! key = Some (Data data) -> CallClearCache ∉ evs ->
  cache (run evs st).1 !! key = Some (Data data) /\
  fetches key (run evs st).1 = fetches key st /\
  (forall cl, cl ∈ (run evs st).2 -> keyOf (argument cl) = Some key ->
              returned cl = Settled (inr data)).
Proof.
  revert st. induction evs as [|ev evs IH]; intros st Hcoh Hentry Hclear.
  - simpl. split; [done |]. split; [done |]. by intros cl ?%elem_of_nil.
  - apply not_elem_of_cons in Hclear as [Hev Hclear].
    destruct (step_changes ev st) as (c & Hc & _ & Hcleared & _).
    assert (c <> Cleared) as Hnc by (by intros ->%Hcleared).
    destruct (data_kept _ _ _ _ _ Hc Hnc Hcoh Hentry) as [Hentry1 Hreg].
    pose proof (coherent_changes _ _ _ _ Hc Hnc Hcoh) as Hcoh1.
    pose proof (fetches_changes key _ _ _ Hc) as Hfetch. rewrite Hreg in Hfetch.
    destruct (IH _ Hcoh1 Hentry1 Hclear) as (IHentry & IHfetch & IHcalls).
    rewrite run_cons. cbn [fst snd]. split; [done |]. split; [lia |].
    intros cl [Hin|Hin]%elem_of_app Hkey; [| by apply IHcalls].
    destruct ev as [language| |p res|p res]; simpl in Hin;
      try by apply elem_of_nil in Hin.
    destruct (loadAll language st) as [st1 m] eqn:Hload. simpl in Hin.
    apply list_elem_of_singleton in Hin as ->. simpl in Hkey |- *.
    rewrite (loadAll_hit _ _ _ _ Hkey Hentry) in Hload. by injection Hload as _ <-.
Qed.

Lemma coherent_loaded : coherent "english" loaded.
Proof.
  apply coherent_run; [| apply coherent_initial].
  intros Hin. repeat (apply elem_of_cons in Hin as [Hin|Hin]; [done |]).
  by apply elem_of_nil in Hin.
Qed.

Lemma resolved_partition_is_kept_witness :
  cache loaded !! "english" = Some (Data [opener; yasin]) /\
  cache (run [CallLoadAll (Str "arabic"); CallLoadAll (Str " English")] loaded).1 !! "english"
  = Some (Data [opener; yasin]).
Proof.
  split; [reflexivity |].
  refine (proj1 (resolved_partition_is_kept "english" [opener; yasin]
                   [CallLoadAll (Str "arabic"); CallLoadAll (Str " English")] loaded
                   coherent_loaded eq_refl _)).
  intros Hin. repeat (apply elem_of_cons in Hin as [Hin|Hin]; [discriminate Hin |]).
  by apply elem_of_nil in Hin.
Defined.



End Invariants.

(** ** How the operations compose *)
Section Composition.

Lemma outcome_await_error {A} (st : state) (m : async (list SurahItem))
    (rest : list SurahItem -> exn + A) (e : exn) :
  outcome st m = Some (inl e) -> outcome st (await m rest) = Some (inl e).
Proof.
  destruct m as [[e0|x]|p k]; simpl; [by intros [= ->] | done |].
  destruct (promises st !! p) as [[key [a|data|e0]]|]; [done | | | done].
  - intros [= Hk]. by rewrite Hk.
  - by intros [= ->].
Qed.

Lemma outcome_await_pending {A} (st : state) (m : async (list SurahItem))
    (rest : list SurahItem -> exn + A) :
  outcome st m = None -> outcome st (await m rest) = None.
Proof.
  destruct m as [[e0|x]|p k]; simpl; [done | done |].
  by destruct (promises st !! p) as [[key [a|data|e0]]|].
Qed.

(** X8. Errors pass through the query layer unchanged. With a query that
    is not empty, each search operation is rejected with exactly the
    error the promise of its [loadAll] is rejected with (the error of a
    refused language, of a failed retrieval), before it looks at the
    query any further, and it is pending as long as that promise is. *)
Theorem query_layer_passes_errors_on
    (language query i : value) (ids : list value) (st st2 : state) (e : exn) :
  truthy query = true ->
  (outcome st2 (loadAll language st).2 = Some (inl e) ->
   outcome st2 (searchById language query st).2 = Some (inl e) /\
   outcome st2 (searchByIds language (Some (i :: ids)) st).2 = Some (inl e) /\
   outcome st2 (searchByName language query st).2 = Some (inl e) /\
   outcome st2 (searchByPhrase language query st).2 = Some (inl e)) /\
  (outcome st2 (loadAll language st).2 = None ->
   outcome st2 (searchById language query st).2 = None /\
   outcome st2 (searchByIds language (Some (i :: ids)) st).2 = None /\
   outcome st2 (searchByName language query st).2 = None /\
   outcome st2 (searchByPhrase language query st).2 = None).
Proof.
  intros Hquery. unfold searchById, searchByIds, searchByName, searchByPhrase.
  rewrite Hquery. cbv beta iota. simpl negb. cbv iota.
  destruct (loadAll language st) as [st1 m]. cbn [snd].
  split; intros Hm.
  - by rewrite !(outcome_await_error _ _ _ _ Hm).
  - by rewrite !(outcome_await_pending _ _ _ Hm).
Qed.

Lemma query_layer_passes_errors_on_witness :
  truthy (Num 36) = true /\
  outcome initial (loadAll Undefined initial).2 = Some (inl (Error "Language is required.")) /\
  outcome initial (searchById Undefined (Num 36) initial).2
  = Some (inl (Error "Language is required.")) /\
  outcome initial (searchByIds Undefined (Some [Num 36]) initial).2
  = Some (inl (Error "Language is required.")) /\
  outcome initial (searchByName Undefined (Num 36) initial).2
  = Some (inl (Error "Language is required.")) /\
  outcome initial (searchByPhrase Undefined (Num 36) initial).2
  = Some (inl (Error "Language is required.")).
Proof.
  split; [reflexivity |]. split; [reflexivity |].
  exact (proj1 (query_layer_passes_errors_on Undefined (Num 36) (Num 36) [] initial initial
                  (Error "Language is required.") eq_refl) eq_refl).
Defined.

(** A failed retrieval reaches the searches that were waiting for it. *)
Example search_sees_the_status_error :
  let st := (searchByName (Str "english") (Str "open") initial).1 in
  let st2 := (step (FetchSettles 0 (inr {| ok := false; status := 404 |})) st).1 in
  outcome st2 (searchByName (Str "english") (Str "open") initial).2
  = Some (inl (Error "Language file 'english.json' not found (Status: 404)."))
  /\ outcome st (searchByName (Str "english") (Str "open") initial).2 = None.
Proof. split; reflexivity. Qed.

(** A second call for the same key finds what the first one left. *)
Lemma loadAll_same_key (language language' : value) (st : state) :
  keyOf language' = keyOf language ->
  loadAll language' (loadAll language st).1
  = ((loadAll language st).1,
     match keyOf language with
     | Some _ => (loadAll language st).2
     | None => (loadAll language' st).2
     end).
Proof.
  intros Hsame. destruct (keyOf language) as [key|] eqn:Hkey.
  - destruct (cache st !! key) as [e|] eqn:He.
    + rewrite (loadAll_hit _ _ _ _ Hkey He). simpl.
      by rewrite (loadAll_hit _ _ _ _ Hsame He).
    + rewrite (loadAll_miss _ _ _ Hkey He). simpl.
      rewrite (loadAll_hit language' key (Promise (length (promises st))) _ Hsame); [done |].
      simpl. by rewrite lookup_insert_eq.
  - rewrite (loadAll_no_key _ _ Hkey).
    pose proof (loadAll_no_key _ st Hsame) as Hst.
    destruct (loadAll language' st) as [st1 m]. simpl in Hst |- *. by subst st1.
Qed.

(** X9. The operations share one retrieval. After a call of [loadAll]
    for a language, every operation called with a language of the same
    key (the same language in another case, with spaces around) leaves
    the cache, the promises and the fetches as they are; and when the
    cache holds the array of that key, every operation returns a promise
    that is settled from the start. *)
Theorem operations_share_the_retrieval
    (language language' query : value) (ids : option (list value))
    (key : string) (data : list SurahItem) (st : state) :
  keyOf language' = keyOf language ->
  ((loadAll language' (loadAll language st).1).1 = (loadAll language st).1 /\
   (searchById language' query (loadAll language st).1).1 = (loadAll language st).1 /\
   (searchByIds language' ids (loadAll language st).1).1 = (loadAll language st).1 /\
   (searchByName language' query (loadAll language st).1).1 = (loadAll language st).1 /\
   (searchByPhrase language' query (loadAll language st).1).1 = (loadAll language st).1) /\
  (keyOf language = Some key -> cache st !! key = Some (Data data) ->
   (loadAll language st).2 = Settled (inr data) /\
   (exists r, (searchById language query st).2 = Settled r) /\
   (exists r, (searchByIds language ids st).2 = Settled r) /\
   (exists r, (searchByName language query st).2 = Settled r) /\
   (exists r, (searchByPhrase language query st).2 = Settled r)).
Proof.
  intros Hsame. split.
  - pose proof (loadAll_same_key language language' st Hsame) as Hagain.
    destruct (search_calls_loadAll language' query ids (loadAll language st).1)
      as (-> & -> & -> & ->).
    rewrite Hagain. cbn [fst].
    split; [done |]. split; [by destruct (truthy query) |].
    split; [by destruct ids as [[|i ids]|] |]. by destruct (truthy query).
  - intros Hkey Hentry. rewrite (loadAll_hit _ _ _ _ Hkey Hentry). cbn [snd].
    split; [done |].
    unfold searchById, searchByIds, searchByName, searchByPhrase.
    rewrite (loadAll_hit _ _ _ _ Hkey Hentry).
    destruct (truthy query), ids as [[|i ids]|]; simpl; eauto 10.
Qed.

Lemma operations_share_the_retrieval_witness :
  keyOf (Str " ENGLISH ") = keyOf (Str "english") /\
  (searchByName (Str " ENGLISH ") (Str "open") (loadAll (Str "english") initial).1).1
  = (loadAll (Str "english") initial).1.
Proof.
  split; [reflexivity |].
  exact (proj1 (proj2 (proj2 (proj2 (proj1
           (operations_share_the_retrieval (Str "english") (Str " ENGLISH ") (Str "open") None
              "english" [] initial eq_refl)))))).
Defined.

Lemma find_head_filter {A} (f : A -> bool) (l : list A) :
  List.find f l = head (List.filter f l).
Proof. induction l as [|x l IH]; simpl; [done |]. by destruct (f x). Qed.

(** X10. [searchById] agrees with [searchByIds]. With an id that is not
    empty, a string or a safe integer, on a partition that [loadAll]
    resolved to, [searchById]
    yields the first of the items [searchByIds] yields for that id
    alone, and fails with the not-found error exactly when [searchByIds]
    yields none. *)
Theorem searchById_is_first_of_searchByIds
    (language id' : value) (st st2 : state) (quran : list SurahItem) :
  printable id' ->
  truthy id' = true ->
  outcome st2 (loadAll language st).2 = Some (inr quran) ->
  exists found,
    outcome st2 (searchByIds language (Some [id']) st).2 = Some (inr found) /\
    outcome st2 (searchById language id' st).2
    = Some match found with
           | surah :: _ => inr surah
           | [] => inl (Error ("Surah with ID '" +:+ ToString id' +:+ "' not found in '"
                               +:+ ToString language +:+ "'."))
           end.
Proof.
  intros _ Hid Hquran. unfold searchById, searchByIds. rewrite Hid. simpl negb. cbv iota.
  destruct (loadAll language st) as [st1 m]. cbn [snd] in Hquran |- *.
  rewrite !(outcome_await _ _ _ _ Hquran). eexists. split; [done |].
  rewrite find_head_filter.
  rewrite (List.filter_ext (fun s => String.eqb (id s) (trim (ToString id')))
             (fun s => bool_decide (id s ∈ (list_to_set
                         (List.map (fun i => trim (ToString i)) [id']) : gset string)))).
  - by destruct (List.filter _ quran).
  - intros s. destruct (String.eqb_spec (id s) (trim (ToString id'))) as [Heq|Hne].
    + rewrite bool_decide_eq_true_2; [done |].
      apply elem_of_list_to_set. cbn [List.map]. by apply list_elem_of_singleton.
    + rewrite bool_decide_eq_false_2; [done |].
      intros Hin%elem_of_list_to_set. cbn [List.map] in Hin.
      by apply list_elem_of_singleton in Hin.
Qed.

Lemma searchById_is_first_of_searchByIds_witness :
  printable (Num 36) /\
  truthy (Num 36) = true /\
  outcome loaded (loadAll (Str "english") loaded).2 = Some (inr [opener; yasin]) /\
  exists found,
    outcome loaded (searchByIds (Str "english") (Some [Num 36]) loaded).2 = Some (inr found) /\
    outcome loaded (searchById (Str "english") (Num 36) loaded).2
    = Some match found with
           | surah :: _ => inr surah
           | [] => inl (Error "Surah with ID '36' not found in 'english'.")
           end.
Proof.
  assert (Hprintable : printable (Num 36)) by (unfold printable, safeInteger; lia).
  split; [exact Hprintable |]. split; [reflexivity |]. split; [reflexivity |].
  exact (searchById_is_first_of_searchByIds (Str "english") (Num 36) loaded loaded
           [opener; yasin] Hprintable eq_refl eq_refl).
Defined.

(** X12. An id made of white space only is not taken for a missing id:
    it passes the test, a call of [loadAll] is made, and the id looked
    for is the empty string, so that on a partition none of whose items
    has an empty [id] the call fails with the not-found error, which
    shows the id as it was passed. *)
Theorem searchById_blank_id_is_looked_up
    (language : value) (w : string) (st st2 : state) (quran : list SurahItem) :
  w <> "" -> blank w = true ->
  (searchById language (Str w) st).1 = (loadAll language st).1 /\
  (outcome st2 (loadAll language st).2 = Some (inr quran) ->
   outcome st2 (searchById language (Str w) st).2
   = Some match List.find (fun s => String.eqb (id s) "") quran with
          | Some surah => inr surah
          | None => inl (Error ("Surah with ID '" +:+ w +:+ "' not found in '"
                                +:+ ToString language +:+ "'."))
          end).
Proof.
  intros Hw Hblank. unfold searchById. simpl truthy.
  rewrite bool_decide_eq_false_2 by done. simpl negb. cbv iota.
  destruct (loadAll language st) as [st1 m]. cbn [fst snd]. split; [done |].
  intros Hquran. rewrite (outcome_await _ _ _ _ Hquran). simpl ToString.
  unfold trim. by rewrite (trimStart_blank _ Hblank).
Qed.

Lemma searchById_blank_id_is_looked_up_witness :
  "  " <> "" /\ blank "  " = true /\
  outcome loaded (loadAll (Str "english") loaded).2 = Some (inr [opener; yasin]) /\
  outcome loaded (searchById (Str "english") (Str "  ") loaded).2
  = Some (inl (Error "Surah with ID '  ' not found in 'english'.")).
Proof.
  split; [discriminate |]. split; [reflexivity |]. split; [reflexivity |].
  exact (proj2 (searchById_blank_id_is_looked_up (Str "english") "  " loaded loaded
                  [opener; yasin] ltac:(discriminate) eq_refl) eq_refl).
Defined.

Lemma trimStart_head (s : string) :
  trimStart s = "" \/ exists c t, trimStart s = String c t /\ isWhiteSpace c = false.
Proof.
  induction s as [|c s IH]; simpl; [by left |].
  destruct (isWhiteSpace c) eqn:Hc; [done |]. right. by exists c, s.
Qed.

Lemma trimEnd_idemp (s : string) : trimEnd (trimEnd s) = trimEnd s.
Proof.
  induction s as [|c s IH]; simpl; [done |].
  destruct (trimEnd s) as [|d t] eqn:Ht.
  - destruct (isWhiteSpace c) eqn:Hc; simpl; [done | by rewrite Hc].
  - change (trimEnd (String c (String d t))) with
      (match trimEnd (String d t) with
       | EmptyString => if isWhiteSpace c then EmptyString else String c EmptyString
       | u => String c u
       end).
    by rewrite IH.
Qed.

Lemma trimStart_trimEnd (c : ascii) (t : string) :
  isWhiteSpace c = false -> trimStart (trimEnd (String c t)) = trimEnd (String c t).
Proof.
  intros Hc. simpl. rewrite Hc. destruct (trimEnd t); simpl; by rewrite Hc.
Qed.

Lemma trim_idemp (s : string) : trim (trim s) = trim s.
Proof.
  unfold trim. destruct (trimStart_head s) as [-> | (c & t & -> & Hc)]; [done |].
  by rewrite trimStart_trimEnd, trimEnd_idemp.
Qed.

(** X13. The key is canonical. Trimming and lower-casing a key again
    gives the key back, so a language and its key, when that is not
    empty, are the same to [loadAll]: the cache is addressed, and the
    URL built, from a string that has no white space around it and no
    upper-case letter in it. *)
Theorem key_is_canonical (s : string) (st : state) :
  toLowerCase (trim (toLowerCase (trim s))) = toLowerCase (trim s) /\
  (toLowerCase (trim s) <> "" ->
   keyOf (Str (toLowerCase (trim s))) = keyOf (Str s) /\
   loadAll (Str (toLowerCase (trim s))) st = loadAll (Str s) st).
Proof.
  assert (Hidem : toLowerCase (trim (toLowerCase (trim s))) = toLowerCase (trim s)).
  { by rewrite trim_toLowerCase, trim_idemp, toLowerCase_idemp. }
  split; [done |]. intros Hkey.
  assert (s <> "") as Hs by (by intros ->).
  split; [by rewrite !keyOf_Str, Hidem |].
  unfold loadAll, loadAllWith, standardFetch. simpl truthy. rewrite !bool_decide_eq_false_2 by done.
  simpl negb. cbv iota. by rewrite Hidem.
Qed.

Lemma key_is_canonical_witness :
  toLowerCase (trim "  English ") <> "" /\
  loadAll (Str (toLowerCase (trim "  English "))) loaded = loadAll (Str "  English ") loaded.
Proof.
  split; [discriminate |].
  exact (proj2 (proj2 (key_is_canonical "  English " loaded) ltac:(discriminate))).
Defined.

(** X14. [loadAll] resolves to the parsed body. On a miss, when the
    response is [ok] and [res.json()] is fulfilled with [data], the
    promise the call returned is fulfilled with [data], [data] is what
    the cache then holds for the key, one URL has been fetched, that of
    the key, and the next call for the key returns [data] at once. *)
Theorem loadAll_resolves_to_the_parsed_body
    (language : value) (key : string) (res : Response) (data : list SurahItem) (st : state) :
  keyOf language = Some key -> cache st !! key = None -> ok res = true ->
  (run [CallLoadAll language;
        FetchSettles (length (promises st)) (inr res);
        JsonSettles (length (promises st)) (inr data)] st).2
  = [{| argument := language; returned := Awaiting (length (promises st)) inr |}] /\
  outcome (run [CallLoadAll language;
                FetchSettles (length (promises st)) (inr res);
                JsonSettles (length (promises st)) (inr data)] st).1
    (Awaiting (length (promises st)) (@inr exn _))
  = Some (inr data) /\
  cache (run [CallLoadAll language;
              FetchSettles (length (promises st)) (inr res);
              JsonSettles (length (promises st)) (inr data)] st).1 !! key
  = Some (Data data) /\
  fetched (run [CallLoadAll language;
                FetchSettles (length (promises st)) (inr res);
                JsonSettles (length (promises st)) (inr data)] st).1
  = fetched st ++ [url key] /\
  (loadAll language
     (run [CallLoadAll language;
           FetchSettles (length (promises st)) (inr res);
           JsonSettles (length (promises st)) (inr data)] st).1).2
  = Settled (inr data).
Proof.
  intros Hkey Hmiss Hok.
  set (p := length (promises st)).
  assert (Hlt : p < length (promises st ++ [{| safeLanguage := key;
                                               settled := Pending AwaitFetch |}])).
  { rewrite length_app. simpl. lia. }
  assert (Hrun : run [CallLoadAll language; FetchSettles p (inr res); JsonSettles p (inr data)] st
                 = ({| cache := <[key := Data data]> (<[key := Promise p]> (cache st));
                       promises := <[p := {| safeLanguage := key; settled := Fulfilled data |}]>
                                     (<[p := {| safeLanguage := key;
                                                settled := Pending AwaitJson |}]>
                                        (promises st
                                         ++ [{| safeLanguage := key;
                                                settled := Pending AwaitFetch |}]));
                       fetched := fetched st ++ [url key] |},
                    [{| argument := language; returned := Awaiting p inr |}])).
  { cbn [run step]. rewrite (loadAll_miss _ _ _ Hkey Hmiss). fold p.
    unfold resumeFetch. cbn [promises].
    rewrite list_lookup_middle by done. cbv beta iota. rewrite Hok. cbn [negb]. cbv iota.
    unfold resumeJson. cbn [promises cache fetched].
    rewrite list_lookup_insert_eq by done. done. }
  rewrite Hrun. cbn [fst snd].
  split; [done |]. split.
  - cbn [outcome promises]. rewrite list_lookup_insert_eq; [done |]. by rewrite length_insert.
  - split; [by cbn [cache]; rewrite lookup_insert_eq |]. split; [done |].
    erewrite loadAll_hit; [| done | by cbn [cache]; rewrite lookup_insert_eq]. done.
Qed.

Lemma loadAll_resolves_to_the_parsed_body_witness :
  keyOf (Str "Arabic") = Some "arabic" /\ cache loaded !! "arabic" = None /\
  cache (run [CallLoadAll (Str "Arabic");
              FetchSettles (length (promises loaded)) (inr {| ok := true; status := 200 |});
              JsonSettles (length (promises loaded)) (inr [yasin])] loaded).1 !! "arabic"
  = Some (Data [yasin]).
Proof.
  split; [reflexivity |]. split; [reflexivity |].
  exact (proj1 (proj2 (proj2
           (loadAll_resolves_to_the_parsed_body (Str "Arabic") "arabic"
              {| ok := true; status := 200 |} [yasin] loaded eq_refl eq_refl eq_refl)))).
Defined.

(** X15. A query that is not a string is found out late. A number other
    than [0] passed as keyword or phrase passes the emptiness test, so
    the call of [loadAll] is made (and a retrieval started on a miss);
    only when the partition has arrived does the operation fail, with
    the [TypeError] of calling [toLowerCase] on a number. *)
Theorem numeric_query_fails_after_loading
    (language : value) (n : Z) (st st2 : state) (quran : list SurahItem) :
  n <> 0%Z ->
  (searchByName language (Num n) st).1 = (loadAll language st).1 /\
  (searchByPhrase language (Num n) st).1 = (loadAll language st).1 /\
  (outcome st2 (loadAll language st).2 = Some (inr quran) ->
   outcome st2 (searchByName language (Num n) st).2 = Some (inl TypeError) /\
   outcome st2 (searchByPhrase language (Num n) st).2 = Some (inl TypeError)).
Proof.
  intros Hn. unfold searchByName, searchByPhrase. simpl truthy.
  rewrite !bool_decide_eq_false_2 by done. simpl negb. cbv iota.
  destruct (loadAll language st) as [st1 m]. cbn [fst snd].
  split; [done |]. split; [done |]. intros Hquran.
  by rewrite !(outcome_await _ _ _ _ Hquran).
Qed.

Lemma numeric_query_fails_after_loading_witness :
  (7 <> 0)%Z /\
  fetched (searchByName (Str "english") (Num 7) initial).1
  = ["https://cdn.jsdelivr.net/npm/@mdkva/surahkit/data/english.json"] /\
  outcome loaded (searchByName (Str "english") (Num 7) loaded).2 = Some (inl TypeError).
Proof.
  split; [discriminate |]. split; [reflexivity |].
  exact (proj1 (proj2 (proj2 (numeric_query_fails_after_loading (Str "english") 7 loaded loaded
                                [opener; yasin] ltac:(discriminate))) eq_refl)).
Defined.

End Composition.

(** ** Single flight, eviction and their limits *)
Section SingleFlight.

Lemma run_app (evs1 evs2 : list event) (st : state) :
  run (evs1 ++ evs2) st
  = ((run evs2 (run evs1 st).1).1, (run evs1 st).2 ++ (run evs2 (run evs1 st).1).2).
Proof.
  revert st. induction evs1 as [|ev evs1 IH]; intros st.
  - simpl. by destruct (run evs2 st).
  - rewrite <- app_comm_cons, !run_cons, IH. cbn [fst snd]. by rewrite app_assoc.
Qed.

Lemma window_app (key : string) (evs1 evs2 : list event) (st : state) :
  window key (evs1 ++ evs2) st = true ->
  window key evs1 st = true /\ window key evs2 (run evs1 st).1 = true.
Proof.
  revert st. induction evs1 as [|ev evs1 IH]; intros st Hwin; [done |].
  rewrite <- app_comm_cons in Hwin.
  apply window_cons in Hwin as (Hfails & Hclear & Hwin).
  destruct (IH _ Hwin) as [H1 H2]. rewrite run_cons. cbn [fst]. split; [| done].
  simpl. rewrite Hfails, H1. by destruct ev.
Qed.

Lemma window_no_clear (key : string) (evs : list event) (st : state) :
  window key evs st = true -> CallClearCache ∉ evs.
Proof.
  revert st. induction evs as [|ev evs IH]; intros st Hwin.
  - apply not_elem_of_nil.
  - apply window_cons in Hwin as (_ & Hclear & Hwin).
    apply not_elem_of_cons. split; [done | by eapply IH].
Qed.

(** A retrieval that succeeds stores its array under its key. *)
Lemma succeeds_step (key : string) (ev : event) (data : list SurahItem) (st : state) :
  succeeds key ev st = Some data -> cache (step ev st).1 !! key = Some (Data data).
Proof.
  destruct ev as [language| |p res|p [error|d]]; simpl; try done.
  unfold resumeJson.
  destruct (promises st !! p) as [[k [[|]|d0|e]]|] eqn:Hp; try done.
  case_bool_decide as Hk; [| done]. intros [= <-]. subst k. simpl.
  by rewrite lookup_insert_eq.
Qed.

(** In a coherent state an array in the cache outlives every run that
    does not clear the cache. *)
Lemma data_kept_run (key : string) (data : list SurahItem) (evs : list event) (st : state) :
  coherent key st -> cache st !! key = Some (Data data) -> CallClearCache ∉ evs ->
  cache (run evs st).1 !! key = Some (Data data).
Proof.
  revert st. induction evs as [|ev evs IH]; intros st Hcoh Hentry Hclear; [done |].
  apply not_elem_of_cons in Hclear as [Hev Hclear].
  destruct (step_changes ev st) as (c & Hc & _ & Hcleared & _).
  assert (c <> Cleared) as Hnc by (by intros ->%Hcleared).
  rewrite run_cons. cbn [fst]. apply IH; [| | done].
  - by eapply coherent_changes.
  - by eapply data_kept.
Qed.

(** C1, as the specification states it, fails after a [clearCache()]
    that ran during a retrieval: in a window without failure and without
    clearing, with a single fetch, two calls for the same key receive
    two different arrays. *)
Lemma single_flight_race_counterexample :
  window "english" raceWindow raced = true
  /\ fetches "english" (run raceWindow raced).1 = fetches "english" raced + 1
  /\ List.map (fun c => (keyOf (argument c), outcome (run raceWindow raced).1 (returned c)))
       (run raceWindow raced).2
     = [(Some "english", Some (inr [opener; yasin]));
        (Some "english", Some (inr [opener]))].
Proof. repeat split; reflexivity. Qed.

(** C1, amended. In a window for [key] (no retrieval of [key] fails, the
    cache is not cleared) [fetch] is called for [key] at most once
    however many calls of [loadAll] there are, and not at all when the
    window starts with an entry for [key], be it a pending promise or an
    array. When the window starts in a coherent state, as every state of
    a run that never cleared the cache is, all calls for [key] made in
    the window share the entry of [key]; those that have received
    something have received the same array; and once the retrieval of
    [key] has succeeded with an array, that array is in the cache at the
    end of the window and every call for [key] made in the window,
    before or after, has received it. *)
Theorem loadAll_single_flight (key : string) (evs : list event) (st : state) :
  window key evs st = true ->
  fetches key (run evs st).1 <= fetches key st + 1 /\
  (is_Some (cache st !! key) -> fetches key (run evs st).1 = fetches key st) /\
  (coherent key st ->
   (forall c1 c2,
       c1 ∈ (run evs st).2 -> c2 ∈ (run evs st).2 ->
       keyOf (argument c1) = Some key -> keyOf (argument c2) = Some key ->
       joined key (run evs st).1 c1 /\
       forall r1 r2,
         outcome (run evs st).1 (returned c1) = Some r1 ->
         outcome (run evs st).1 (returned c2) = Some r2 ->
         r1 = r2 /\
         exists data, r1 = inr data /\ cache (run evs st).1 !! key = Some (Data data)) /\
   (forall before ev after data,
       evs = before ++ ev :: after ->
       succeeds key ev (run before st).1 = Some data ->
       cache (run evs st).1 !! key = Some (Data data) /\
       forall c, c ∈ (run evs st).2 -> keyOf (argument c) = Some key ->
                 outcome (run evs st).1 (returned c) = Some (inr data))).
Proof.
  intros Hwin.
  destruct (window_fetches key evs st Hwin) as (Hle & Hsome).
  split; [done |]. split; [by intros H; apply Hsome |].
  intros Hcoh. split.
  - intros c1 c2 Hin1 Hin2 Hkey1 Hkey2.
    destruct (window_run key evs st Hcoh Hwin) as (Hcoh' & _).
    pose proof (window_calls_joined key evs st c1 Hcoh Hwin Hin1 Hkey1) as Hj1.
    pose proof (window_calls_joined key evs st c2 Hcoh Hwin Hin2 Hkey2) as Hj2.
    split; [done |]. intros r1 r2 Hr1 Hr2. unfold joined in Hj1, Hj2.
    destruct (cache (run evs st).1 !! key) as [[p|data]|] eqn:Hentry; [| | done].
    + apply Hcoh' in Hentry as [a Hp].
      rewrite Hj1 in Hr1. simpl in Hr1. by rewrite Hp in Hr1.
    + rewrite Hj1 in Hr1. rewrite Hj2 in Hr2. injection Hr1 as <-. injection Hr2 as <-.
      split; [done |]. by exists data.
  - intros before ev after data Hevs Hsucceeds.
    assert (Hentry : cache (run evs st).1 !! key = Some (Data data)).
    { subst evs. destruct (window_app _ _ _ _ Hwin) as [Hwin1 Hwin2].
      destruct (window_run key before st Hcoh Hwin1) as (Hcoh1 & _).
      pose proof (window_no_clear _ _ _ Hwin2) as Hclear.
      apply window_cons in Hwin2 as (Hfails & Hnotclear & Hwin2).
      destruct (window_step _ _ _ Hfails Hnotclear) as (c & Hc & _ & Hnc).
      apply not_elem_of_cons in Hclear as [_ Hclear].
      rewrite run_app, run_cons. cbn [fst].
      apply data_kept_run; [by eapply coherent_changes | by apply succeeds_step | done]. }
    split; [done |]. intros c Hin Hkey.
    pose proof (window_calls_joined key evs st c Hcoh Hwin Hin Hkey) as Hj.
    unfold joined in Hj. by rewrite Hentry in Hj.
Qed.

Lemma loadAll_single_flight_witness :
  window "english" session initial = true /\
  fetches "english" (run session initial).1 <= fetches "english" initial + 1 /\
  succeeds "english" (JsonSettles 0 (inr [opener; yasin])) (run (take 3 session) initial).1
  = Some [opener; yasin] /\
  cache (run session initial).1 !! "english" = Some (Data [opener; yasin]) /\
  outcome (run session initial).1 (Awaiting 0 (@inr exn _)) = Some (inr [opener; yasin]).
Proof.
  split; [reflexivity |].
  destruct (loadAll_single_flight "english" session initial eq_refl)
    as (Hle & _ & Hshared).
  split; [exact Hle |]. split; [reflexivity |].
  destruct (proj2 (Hshared (coherent_initial "english"))
              (take 3 session) (JsonSettles 0 (inr [opener; yasin]))
              [CallLoadAll (Str " ENGLISH")] [opener; yasin] eq_refl eq_refl)
    as [Hentry Hcalls].
  split; [exact Hentry |].
  assert (Hin : {| argument := Str "English "; returned := Awaiting 0 inr |}
                ∈ (run session initial).2) by apply list_elem_of_here.
  exact (Hcalls _ Hin eq_refl).
Defined.







End SingleFlight.
